(** * inject: a type-indexed dependency registry with an event bus

    A shallow embedding of [inject.go] and the properties of its
    specification.  The registry is a Go map from [reflect.Type] to
    [reflect.Value] with an optional parent; [Invoke] and [Apply] resolve
    function parameters and struct fields through [Get]; [On], [Fire],
    [Start] and [Stop] form the event bus.

    The [reflect] package is a library the program uses, not part of it: its
    type table (kinds, element types, parameter lists, struct fields, the
    implements relation) is the interface [Reflect] below, and every theorem
    holds for every instance of it.

    Injectors are shared and changed in place: they live in a heap, and a
    parent is the address of another injector.  Struct variables live in a
    memory of their own, which [Apply] writes to.  The functions that
    [Invoke] calls change a state of the world that they alone see; for the
    handlers of events, which are handed the injector, that state includes
    the heap of injectors.

    The source does not compile as it stands.  Where it writes [Event.Type]
    for a type descriptor, the descriptor of the struct [Event] is meant;
    the [return i] of [On], which has no result, is left out; in [run],
    [i.Set(Event.Type, e)] binds the Value of the event and
    [i.parent.Events <- e] sends on the events channel of the parent; the
    dispatch loop is known by its two receive cases. *)

From stdpp Require Import gmap strings list fin_maps functions.

Set Default Proof Using "Type".
Set Warnings "-register-all".

(** ** Results of running Go code

    A call returns, panics, or is still running when the fuel of the model
    is used up (the three loops that Go does not bound: the parent chain of
    [Get] and the pointer chains of [InterfaceOf] and [Apply]). *)

Inductive outcome (A : Type) : Type :=
  | Ret (a : A)
  | Panic (msg : string)
  | Timeout.
Arguments Ret {A} a.
Arguments Panic {A} msg.
Arguments Timeout {A}.

#[global] Instance outcome_ret : MRet outcome := fun A a => Ret a.
#[global] Instance outcome_bind : MBind outcome := fun A B f m =>
  match m with
  | Ret a => f a
  | Panic msg => Panic msg
  | Timeout => Timeout
  end.

Definition nil_dereference : string :=
  "runtime error: invalid memory address or nil pointer dereference".

(** ** The reflect library *)

Inductive kind : Set :=
  | KInvalid | KBool | KInt | KUint | KFloat | KString
  | KArray | KChan | KFunc | KInterface | KMap | KPtr | KSlice | KStruct.

#[global] Instance kind_eq_dec : EqDecision kind.
Proof. solve_decision. Defined.

(** A non-nil [reflect.Type] is the identity of a runtime type descriptor;
    [reflect_Type] adds the nil [reflect.Type], which is what [reflect.TypeOf(nil)]
    returns and a legal map key. *)
Abbreviation tid := nat (only parsing).
Abbreviation reflect_Type := (option nat) (only parsing).

Record StructField : Set := mkStructField {
  sf_Name : string;
  sf_PkgPath : string;       (* empty for an exported field *)
  sf_Type : tid;
  sf_Tag : string;
}.

Class Reflect := {
  rtype_Kind : tid -> kind;
  rtype_Elem : tid -> tid;                 (* element type of a pointer or slice *)
  rtype_ins : tid -> list tid;             (* parameter types of a func type *)
  rtype_IsVariadic : tid -> bool;
  rtype_fields : tid -> list StructField;  (* declared fields of a struct type *)
  rtype_String : tid -> string;            (* what the verb %v prints *)
  implements : tid -> tid -> bool;         (* [implements T V]: V has the methods of interface T *)
  directlyAssignable : tid -> tid -> bool; (* [directlyAssignable T V]: a V is stored in a T as it is *)
  StructTag_Get : string -> string -> string;
  EventType : tid;                         (* the descriptor of the struct Event *)
  directlyAssignable_refl : forall t, directlyAssignable t t = true;
}.

(** ** Go values *)

Abbreviation loc := nat (only parsing).

(** The dynamic content of a variable.  An interface holds nothing or a
    dynamic type with its content; a pointer is nil or the address of a
    variable; a func is nil or the identity of a function. *)
Inductive data : Type :=
  | DWord (z : Z)
  | DString (s : string)
  | DPtr (p : option loc)
  | DFunc (f : option nat)
  | DStruct (fs : list data)
  | DSlice (xs : option (list data))
  | DIface (dyn : option (tid * data)).

(** [interface{}]: nil, or a dynamic type and the content. *)
Abbreviation iface := (option (nat * data)) (only parsing).

(** A place in memory: a variable and the path of field indices below it. *)
Abbreviation place := (nat * list nat)%type (only parsing).

(** [reflect.Value]: the zero Value, or a type, the content read when the
    Value was made, the place it refers to when it is addressable, and the
    read-only flag of values reached through unexported fields. *)
Inductive Value : Type :=
  | ZeroValue
  | Val (t : tid) (d : data) (at_ : option place) (ro : bool).

Definition IsValid (v : Value) : bool :=
  match v with ZeroValue => false | Val _ _ _ _ => true end.

Definition TypeOf (i : iface) : reflect_Type := fst <$> i.

Definition ValueOf (i : iface) : Value :=
  match i with
  | None => ZeroValue
  | Some (t, d) => Val t d None false
  end.

(** A slice, as far as its elements go: nil, or their sequence.  (Its
    capacity and its array are in the model of handler slices further
    down.) *)
Abbreviation slice A := (option (list A)) (only parsing).

Definition range_slice {A} (s : slice A) : list A := default [] s.

(** ** The injector *)

Abbreviation addr := nat (only parsing).
Abbreviation Handler := (option (nat * data)) (only parsing).

Record Event : Type := mkEvent {
  Src : addr;
  Type_ : string;
  Data : iface;
}.

Record injector : Type := mkInjector {
  values : gmap reflect_Type Value;
  handlers : gmap string (slice Handler);
  parent : option addr;
}.

(** The [events] and [stopped] channels of an injector are made once, by
    [New], and never replaced: they are named by the injector's address. *)
Inductive chan_op : Type :=
  | Send_events (i : addr) (e : Event)
  | Send_stopped (i : addr) (b : bool).

(** [m[k]] on a Go map: the zero value of the element type when [k] is absent. *)
Definition values_at (m : gmap reflect_Type Value) (t : reflect_Type) : Value :=
  default ZeroValue (m !! t).

Definition handlers_at (m : gmap string (slice Handler)) (key : string) : slice Handler :=
  default None (m !! key).

(** The order in which one [range] loop visits a map is chosen by the
    runtime: an oracle, which the theorems only assume to enumerate the
    map.  It may depend on the injector, and [Invoke] and [Apply] take one
    oracle for each [Get] they make. *)
Abbreviation range_oracle := (nat -> gmap (option nat) Value -> list (option nat * Value)) (only parsing).

Definition enumerates (ord : range_oracle) : Prop :=
  forall i m, ord i m ≡ₚ map_to_list m.

(** The functions of the program around the injector: a func value is the
    identity of a function, whose body maps the arguments and the state of
    the world to a new state and the results (or panics, or does not
    return). *)
Class Funcs := {
  World : Type;
  fn_call : nat -> list Value -> World -> World * outcome (list Value);
}.

(** The state of the world, with the record of the calls that were made. *)
Record world `{Funcs} : Type := mkWorld {
  w_state : World;
  w_calls : list (nat * list Value);
}.
Arguments mkWorld {_} _ _.

(** Memory: the content of every variable. *)
Abbreviation memory := (nat -> data) (only parsing).

(** [error]: nil or a message. *)
Abbreviation error := (option string) (only parsing).

Section Model.
Context {R : Reflect} {F : Funcs}.

(** *** Methods of reflect.Type, called through a possibly nil interface *)

Definition Type_Kind (t : reflect_Type) : outcome kind :=
  match t with
  | None => Panic nil_dereference
  | Some ty => Ret (rtype_Kind ty)
  end.

Definition Type_NumIn (t : reflect_Type) : outcome nat :=
  match t with
  | None => Panic nil_dereference
  | Some ty =>
      if decide (rtype_Kind ty = KFunc) then Ret (length (rtype_ins ty))
      else Panic "reflect: NumIn of non-func type"
  end.

Definition Type_In (t : reflect_Type) (i : nat) : outcome reflect_Type :=
  match t with
  | None => Panic nil_dereference
  | Some ty =>
      if decide (rtype_Kind ty = KFunc) then
        match rtype_ins ty !! i with
        | Some a => Ret (Some a)
        | None => Panic "runtime error: index out of range"
        end
      else Panic "reflect: In of non-func type"
  end.

(** [k.Implements(t)] *)
Definition Type_Implements (k t : reflect_Type) : outcome bool :=
  match k with
  | None => Panic nil_dereference
  | Some kt =>
      match t with
      | None => Panic "reflect: nil type passed to Type.Implements"
      | Some ty =>
          if decide (rtype_Kind ty = KInterface) then Ret (implements ty kt)
          else Panic "reflect: non-interface type passed to Type.Implements"
      end
  end.

(** *** InterfaceOf *)

(** [for t.Kind() == reflect.Ptr { t = t.Elem() }] *)
Fixpoint strip_pointers (fuel : nat) (t : tid) : outcome tid :=
  match fuel with
  | O => Timeout
  | S fuel' =>
      if decide (rtype_Kind t = KPtr) then strip_pointers fuel' (rtype_Elem t)
      else Ret t
  end.

Definition InterfaceOf (fuel : nat) (value : iface) : outcome tid :=
  match TypeOf value with
  | None => Panic nil_dereference
  | Some t0 =>
      t ← strip_pointers fuel t0;
      if decide (rtype_Kind t = KInterface) then Ret t
      else Panic "Called inject.InterfaceOf with a value that is not a pointer to an interface. (*MyInterface)(nil)"
  end.

(** *** The registry *)

Definition heap_at (h : gmap addr injector) (i : addr) : outcome injector :=
  match h !! i with
  | Some inj => Ret inj
  | None => Panic nil_dereference
  end.

Definition New (h : gmap addr injector) : addr * gmap addr injector :=
  let i := fresh (dom h) in
  (i, <[i := mkInjector ∅ ∅ None]> h).

Definition bind_value (inj : injector) (t : reflect_Type) (v : Value) : injector :=
  mkInjector (<[t := v]> (values inj)) (handlers inj) (parent inj).

Definition Map (h : gmap addr injector) (i : addr) (val : iface)
  : outcome (gmap addr injector) :=
  inj ← heap_at h i;
  Ret (<[i := bind_value inj (TypeOf val) (ValueOf val)]> h).

Definition MapTo (fuel : nat) (h : gmap addr injector) (i : addr) (val ifacePtr : iface)
  : outcome (gmap addr injector) :=
  t ← InterfaceOf fuel ifacePtr;
  inj ← heap_at h i;
  Ret (<[i := bind_value inj (Some t) (ValueOf val)]> h).

Definition Set_ (h : gmap addr injector) (i : addr) (typ : reflect_Type) (val : Value)
  : outcome (gmap addr injector) :=
  inj ← heap_at h i;
  Ret (<[i := bind_value inj typ val]> h).

Definition SetParent (h : gmap addr injector) (i : addr) (p : option addr)
  : outcome (gmap addr injector) :=
  inj ← heap_at h i;
  Ret (<[i := mkInjector (values inj) (handlers inj) p]> h).

(** The loop [for k, v := range i.values { if k.Implements(t) { val = v; break } }],
    over the entries in the order the runtime chose. *)
Fixpoint range_implementors (t : reflect_Type) (val : Value) (entries : list (reflect_Type * Value))
  : outcome Value :=
  match entries with
  | [] => Ret val
  | (k, v) :: rest =>
      b ← Type_Implements k t;
      if (b : bool) then Ret v else range_implementors t val rest
  end.

Fixpoint Get (ord : range_oracle) (fuel : nat) (h : gmap addr injector) (i : addr) (t : reflect_Type)
  : outcome Value :=
  match fuel with
  | O => Timeout
  | S fuel' =>
      inj ← heap_at h i;
      let val := values_at (values inj) t in
      if IsValid val then Ret val else
      k ← Type_Kind t;
      val ← (if decide (k = KInterface)
             then range_implementors t val (ord i (values inj))
             else Ret val);
      match IsValid val, parent inj with
      | false, Some p => Get ord fuel' h p t
      | _, _ => Ret val
      end
  end.

(** *** The event bus *)

(** The second test is [t.NumIn() == 0 && t.In(0) != Event.Type]: [In(0)]
    is evaluated only when there is no parameter. *)
Definition validateHandler (handler : Handler) : outcome unit :=
  let t := TypeOf handler in
  k ← Type_Kind t;
  if decide (k ≠ KFunc) then Panic "inject handler must be a callable func" else
  n ← Type_NumIn t;
  bad ← (if decide (n = 0)
         then t0 ← Type_In t 0; Ret (bool_decide (t0 ≠ Some EventType))
         else Ret false);
  if (bad : bool) then Panic "the first arg of inject handler must be a Event type"
  else Ret ().

(** [for _, h := range handlers { validateHandler(h) }] *)
Fixpoint validate_all (hs : list Handler) : outcome unit :=
  match hs with
  | [] => Ret ()
  | h :: rest => _ ← validateHandler h; validate_all rest
  end.

(** [append(s, t...)]: the elements of the result.  Where they are
    written is in [append_slice]. *)
Definition append {A} (s t : slice A) : slice A :=
  match s, t with
  | None, None => None
  | _, _ => Some (range_slice s ++ range_slice t)
  end.

Definition On (h : gmap addr injector) (i : addr) (key : string) (hs : slice Handler)
  : outcome (gmap addr injector) :=
  _ ← validate_all (range_slice hs);
  inj ← heap_at h i;
  let entry :=
    match handlers_at (handlers inj) key with
    | None => hs
    | Some old => append (Some old) hs
    end in
  Ret (<[i := mkInjector (values inj) (<[key := entry]> (handlers inj)) (parent inj)]> h).

(** [Fire] changes nothing in the injector; the result is the sequence of
    channel operations it performs. *)
Definition Fire (h : gmap addr injector) (i : addr) (key : string) (data : iface)
  : outcome (list chan_op) :=
  inj ← heap_at h i;
  match handlers_at (handlers inj) key with
  | Some _ =>
      let e := mkEvent i key data in
      Ret [Send_events i e]
  | None => Ret []
  end.

(** *** Sequences of updates

    The calls that change an injector, as data, to speak of what happens
    "until a later call binds the same type". *)
Inductive update : Type :=
  | do_Map (i : addr) (val : iface)
  | do_MapTo (i : addr) (val ifacePtr : iface)
  | do_Set (i : addr) (typ : reflect_Type) (val : Value)
  | do_SetParent (i : addr) (p : option addr)
  | do_On (i : addr) (key : string) (hs : slice Handler).

Definition run_update (fuel : nat) (h : gmap addr injector) (u : update)
  : outcome (gmap addr injector) :=
  match u with
  | do_Map i val => Map h i val
  | do_MapTo i val ifacePtr => MapTo fuel h i val ifacePtr
  | do_Set i typ val => Set_ h i typ val
  | do_SetParent i p => SetParent h i p
  | do_On i key hs => On h i key hs
  end.

Fixpoint run_updates (fuel : nat) (h : gmap addr injector) (us : list update)
  : outcome (gmap addr injector) :=
  match us with
  | [] => Ret h
  | u :: rest => h' ← run_update fuel h u; run_updates fuel h' rest
  end.


(** *** Invoke *)

Definition Errorf_not_found (t : reflect_Type) : string :=
  "Value not found for type " +:+
  match t with Some ty => rtype_String ty | None => "<nil>" end.

Definition Value_Type (v : Value) : outcome tid :=
  match v with
  | ZeroValue => Panic "reflect: call of reflect.Value.Type on zero Value"
  | Val t _ _ _ => Ret t
  end.

Definition Value_Kind (v : Value) : kind :=
  match v with
  | ZeroValue => KInvalid
  | Val t _ _ _ => rtype_Kind t
  end.

Definition AssignableTo (xt dst : tid) : bool :=
  directlyAssignable dst xt || implements dst xt.

(** [x.assignTo(context, dst)]: the Value that is stored in a variable of
    type [dst], or a panic; a value that only implements [dst] is boxed. *)
Definition assignTo (context : string) (x : Value) (dst : tid) : outcome Value :=
  match x with
  | ZeroValue => Panic nil_dereference
  | Val xt d at_ ro =>
      if directlyAssignable dst xt then Ret (Val dst d at_ ro)
      else if implements dst xt then
        Ret (Val dst (if decide (rtype_Kind xt = KInterface) then d else DIface (Some (xt, d)))
               None false)
      else Panic (context +:+ ": value of type " +:+ rtype_String xt
                  +:+ " is not assignable to type " +:+ rtype_String dst)
  end.

Definition must_be_exported (context : string) (x : Value) : outcome unit :=
  match x with
  | ZeroValue => Panic ("reflect: call of " +:+ context +:+ " on zero Value")
  | Val _ _ _ ro =>
      if ro then Panic ("reflect: " +:+ context +:+ " using value obtained using unexported field")
      else Ret ()
  end.

(** The checks [!xt.AssignableTo(targ)] of [Call], over the fixed
    parameters and over the elements of the variadic one. *)
Fixpoint check_assignable (msg : string -> string -> string) (xs : list Value) (ts : list tid)
  : outcome unit :=
  match xs, ts with
  | x :: xs', t :: ts' =>
      xt ← Value_Type x;
      if AssignableTo xt t then check_assignable msg xs' ts'
      else Panic (msg (rtype_String xt) (rtype_String t))
  | _, _ => Ret ()
  end.

Fixpoint assign_all (context : string) (xs : list Value) (ts : list tid)
  : outcome (list Value) :=
  match xs, ts with
  | x :: xs', t :: ts' =>
      _ ← must_be_exported context x;
      v ← assignTo context x t;
      vs ← assign_all context xs' ts';
      Ret (v :: vs)
  | _, _ => Ret []
  end.

Definition Value_data (v : Value) : data :=
  match v with
  | ZeroValue => DWord 0
  | Val _ d _ _ => d
  end.

(** The argument checks of [reflect.Value.Call] and the arguments the body
    receives.  For a variadic function [Call] itself collects the arguments
    after the fixed ones into the slice of the last parameter; every
    argument is then converted to its parameter type. *)
Definition Call_args (ft : tid) (in_ : list Value) : outcome (list Value) :=
  let params := rtype_ins ft in
  let isVariadic := rtype_IsVariadic ft in
  let n := if isVariadic then length params - 1 else length params in
  if decide (length in_ < n) then Panic "reflect: Call with too few input arguments" else
  if negb isVariadic && bool_decide (n < length in_)
  then Panic "reflect: Call with too many input arguments" else
  if negb (forallb IsValid in_) then Panic "reflect: Call using zero Value argument" else
  _ ← check_assignable (fun x t => "reflect: Call using " +:+ x +:+ " as type " +:+ t)
        (take n in_) (take n params);
  in_ ← (if isVariadic then
           match params !! n with
           | Some st =>
               let elem := rtype_Elem st in
               let rest := drop n in_ in
               _ ← check_assignable
                     (fun x t => "reflect: cannot use " +:+ x +:+ " as type " +:+ t +:+ " in Call")
                     rest (replicate (length rest) elem);
               elems ← assign_all "reflect.Set" rest (replicate (length rest) elem);
               Ret (take n in_ ++ [Val st (DSlice (Some (Value_data <$> elems))) None false])
           | None => Panic "reflect: Func index out of bounds"
           end
         else Ret in_);
  if decide (length in_ ≠ length params) then Panic "reflect.Value.Call: wrong argument count" else
  assign_all "reflect.Value.Call" in_ params.

(** [reflect.ValueOf(f).Call(in)] *)
Definition Value_Call (f : Value) (in_ : list Value) (w : world)
  : world * outcome (list Value) :=
  match f with
  | ZeroValue => (w, Panic "reflect: call of reflect.Value.Call on zero Value")
  | Val ft d _ ro =>
      if decide (rtype_Kind ft ≠ KFunc)
      then (w, Panic "reflect: call of reflect.Value.Call on non-func Value")
      else if ro then (w, Panic "reflect: reflect.Value.Call using value obtained using unexported field")
      else match d with
      | DFunc (Some fid) =>
          match Call_args ft in_ with
          | Ret args =>
              let '(s, r) := fn_call fid args (w_state w) in
              (mkWorld s (w_calls w ++ [(fid, args)]), r)
          | Panic msg => (w, Panic msg)
          | Timeout => (w, Timeout)
          end
      | _ => (w, Panic "reflect.Value.Call: call of nil function")
      end
  end.

(** A valid Value, not reached through an unexported field, of a type
    assignable to [t]: what [Call] and [Set] accept for a [t]. *)
Definition passable (x : Value) (t : tid) : Prop :=
  exists xt d at_, x = Val xt d at_ false /\ AssignableTo xt t = true.

(** The loop of [Invoke] over the parameter indices still to do: the
    arguments found, or the error of the first parameter without a value. *)
Fixpoint Invoke_args (ords : nat -> range_oracle) (fuel : nat) (h : gmap addr injector)
    (inj : addr) (t : reflect_Type) (idxs : list nat) : outcome (list Value + string) :=
  match idxs with
  | [] => Ret (inl [])
  | i :: rest =>
      argType ← Type_In t i;
      val ← Get (ords i) fuel h inj argType;
      if negb (IsValid val) then Ret (inr (Errorf_not_found argType)) else
      r ← Invoke_args ords fuel h inj t rest;
      match r with
      | inl vals => Ret (inl (val :: vals))
      | inr e => Ret (inr e)
      end
  end.

Definition Invoke (ords : nat -> range_oracle) (fuel : nat) (h : gmap addr injector)
    (inj : addr) (f : iface) (w : world) : world * outcome (slice Value * error) :=
  let t := TypeOf f in
  match Type_NumIn t with
  | Ret n =>
      match Invoke_args ords fuel h inj t (seq 0 n) with
      | Ret (inr e) => (w, Ret (None, Some e))
      | Ret (inl in_) =>
          let '(w', r) := Value_Call (ValueOf f) in_ w in
          (w', rets ← r; Ret (Some rets, None))
      | Panic msg => (w, Panic msg)
      | Timeout => (w, Timeout)
      end
  | Panic msg => (w, Panic msg)
  | Timeout => (w, Timeout)
  end.

(** *** Apply *)

Definition ptr_target (d : data) : option loc :=
  match d with DPtr p => p | _ => None end.

Definition struct_fields (d : data) : list data :=
  match d with DStruct fs => fs | _ => [] end.

(** [v.Elem()] of a pointer: the zero Value for nil, else the variable it
    points to, which is addressable. *)
Definition Value_Elem (mem : memory) (v : Value) : Value :=
  match v with
  | ZeroValue => ZeroValue
  | Val t d _ ro =>
      match ptr_target d with
      | Some l => Val (rtype_Elem t) (mem l) (Some (l, [])) ro
      | None => ZeroValue
      end
  end.

(** [for v.Kind() == reflect.Ptr { v = v.Elem() }] *)
Fixpoint follow_pointers (fuel : nat) (mem : memory) (v : Value) : outcome Value :=
  match fuel with
  | O => Timeout
  | S fuel' =>
      if decide (Value_Kind v = KPtr) then follow_pointers fuel' mem (Value_Elem mem v)
      else Ret v
  end.

Definition Value_NumField (v : Value) : nat :=
  match v with
  | ZeroValue => 0
  | Val t _ _ _ => length (rtype_fields t)
  end.

(** [v.Field(i)]: addressable when [v] is, read-only when [v] is or the
    field is unexported. *)
Definition Value_Field (v : Value) (i : nat) : outcome Value :=
  match v with
  | ZeroValue => Panic "reflect: call of reflect.Value.Field on zero Value"
  | Val t d at_ ro =>
      match rtype_fields t !! i with
      | Some sf =>
          Ret (Val (sf_Type sf) (default (DWord 0) (struct_fields d !! i))
                 ((fun '(l, path) => (l, path ++ [i])) <$> at_)
                 (ro || negb (bool_decide (sf_PkgPath sf = ""))))
      | None => Panic "reflect: Field index out of range"
      end
  end.

Definition Value_CanSet (v : Value) : bool :=
  match v with
  | Val _ _ (Some _) false => true
  | _ => false
  end.

(** The content [d] with the part at [path] replaced by [new]. *)
Fixpoint data_set (path : list nat) (new : data) (d : data) : data :=
  match path with
  | [] => new
  | i :: path' =>
      match d with
      | DStruct fs => DStruct (alter (data_set path' new) i fs)
      | _ => d
      end
  end.

(** The part of the content [d] at [path], when [d] has that shape. *)
Fixpoint data_get (path : list nat) (d : data) : option data :=
  match path with
  | [] => Some d
  | i :: path' =>
      match d with
      | DStruct fs => fs !! i ≫= data_get path'
      | _ => None
      end
  end.

(** [f.Set(x)] *)
Definition Value_Set (f x : Value) (mem : memory) : outcome memory :=
  match f with
  | Val ft _ (Some (l, path)) false =>
      _ ← must_be_exported "reflect.Set" x;
      x' ← assignTo "reflect.Set" x ft;
      Ret (<[l := data_set path (Value_data x') (mem l)]> mem)
  | Val _ _ (Some _) true =>
      Panic "reflect: reflect.Value.Set using value obtained using unexported field"
  | Val _ _ None _ => Panic "reflect: reflect.Value.Set using unaddressable value"
  | ZeroValue => Panic "reflect: call of reflect.Value.Set on zero Value"
  end.

(** [structField.Tag == "inject" || structField.Tag.Get("inject") != ""] *)
Definition inject_tag (sf : StructField) : bool :=
  bool_decide (sf_Tag sf = "inject")
  || negb (bool_decide (StructTag_Get (sf_Tag sf) "inject" = "")).

(** The loop of [Apply] over the field indices still to do.  Memory is
    returned with every result: the fields set before an error or a panic
    stay set. *)
Fixpoint Apply_fields (ords : nat -> range_oracle) (fuel : nat) (h : gmap addr injector)
    (inj : addr) (v : Value) (t : tid) (idxs : list nat) (mem : memory)
  : memory * outcome error :=
  match idxs with
  | [] => (mem, Ret None)
  | i :: rest =>
      match Value_Field v i, rtype_fields t !! i with
      | Ret f, Some structField =>
          if Value_CanSet f && inject_tag structField then
            match Value_Type f with
            | Ret ft =>
                match Get (ords i) fuel h inj (Some ft) with
                | Ret x =>
                    if negb (IsValid x)
                    then (mem, Ret (Some (Errorf_not_found (Some ft))))
                    else match Value_Set f x mem with
                         | Ret mem' => Apply_fields ords fuel h inj v t rest mem'
                         | Panic msg => (mem, Panic msg)
                         | Timeout => (mem, Timeout)
                         end
                | Panic msg => (mem, Panic msg)
                | Timeout => (mem, Timeout)
                end
            | Panic msg => (mem, Panic msg)
            | Timeout => (mem, Timeout)
            end
          else Apply_fields ords fuel h inj v t rest mem
      | Ret _, None => (mem, Panic "reflect: Field index out of bounds")
      | Panic msg, _ => (mem, Panic msg)
      | Timeout, _ => (mem, Timeout)
      end
  end.

Definition Apply (ords : nat -> range_oracle) (fuel : nat) (h : gmap addr injector)
    (inj : addr) (val : iface) (mem : memory) : memory * outcome error :=
  match follow_pointers fuel mem (ValueOf val) with
  | Ret v =>
      if decide (Value_Kind v ≠ KStruct) then (mem, Ret None) else
      match Value_Type v with
      | Ret t => Apply_fields ords fuel h inj v t (seq 0 (Value_NumField v)) mem
      | Panic msg => (mem, Panic msg)
      | Timeout => (mem, Timeout)
      end
  | Panic msg => (mem, Panic msg)
  | Timeout => (mem, Timeout)
  end.

End Model.

(** *** Start and Stop

    [Start] spawns one goroutine, which waits in a [select] for an event or
    for the stop signal; [Stop] sends on the unbuffered channel [stopped].
    A send on an unbuffered channel completes when a goroutine receives from
    it, and only the dispatch loops of that injector ever do, while they
    wait in their [select].  A loop that has received an event is inside
    [run] until [run] returns, and receives nothing meanwhile.  The state
    is the pool of the goroutines that [Start] spawned and that have not
    returned; a call returns the new pool, or nothing when the caller
    blocks. *)

(** The goroutine of [Start], [for { select { ... } }] on the channels of
    the injector: waiting in its [select], or inside [i.run(e)]. *)
Inductive goroutine : Type :=
  | dispatch_loop (i : addr)
  | in_run (i : addr) (e : Event).

(** The two cases of the [select]: [case e := <-i.events] and
    [case <-i.stopped]. *)
Definition receives (g : goroutine) (op : chan_op) : bool :=
  match g, op with
  | dispatch_loop i, Send_events j _ => bool_decide (i = j)
  | dispatch_loop i, Send_stopped j _ => bool_decide (i = j)
  | in_run _ _, _ => false
  end.

(** After an event the loop calls [i.run(e)]; after the stop signal the
    goroutine returns. *)
Definition after_receive (g : goroutine) (op : chan_op) : list goroutine :=
  match op with
  | Send_events i e => [in_run i e]
  | Send_stopped _ _ => []
  end.

(** A send completes with the first goroutine of the pool that receives
    from the channel; with none, the sender blocks. *)
Fixpoint send (pool : list goroutine) (op : chan_op) : option (list goroutine) :=
  match pool with
  | [] => None
  | g :: rest =>
      if receives g op then Some (after_receive g op ++ rest)
      else cons g <$> send rest op
  end.

(** The sends of one goroutine, one after the other. *)
Fixpoint sends (pool : list goroutine) (ops : list chan_op) : option (list goroutine) :=
  match ops with
  | [] => Some pool
  | op :: rest => pool' ← send pool op; sends pool' rest
  end.

(** The end of [i.run(e)] in a loop of [i], beside the goroutines
    [others]: when the sends that [run] has to make complete, the loop
    goes round and waits in its [select] again; when one finds no receiver,
    the loop stays inside [run] (no pool). *)
Definition back_to_select (i : addr) (ops : list chan_op) (others : list goroutine)
  : option (list goroutine) :=
  pool ← sends others ops; Some (dispatch_loop i :: pool).

Definition Start (pool : list goroutine) (i : addr) : option (list goroutine) :=
  Some (dispatch_loop i :: pool).

Definition Stop (pool : list goroutine) (i : addr) : option (list goroutine) :=
  send pool (Send_stopped i true).

Inductive bus_call : Type :=
  | call_Start (i : addr)
  | call_Stop (i : addr)
  | call_send (op : chan_op).

Definition do_call (pool : list goroutine) (c : bus_call) : option (list goroutine) :=
  match c with
  | call_Start i => Start pool i
  | call_Stop i => Stop pool i
  | call_send op => send pool op
  end.

(** A goroutine that makes the calls in sequence: the pool it leaves and
    the calls it never gets to, the first of which it is blocked in. *)
Fixpoint do_calls (pool : list goroutine) (cs : list bus_call)
  : list goroutine * list bus_call :=
  match cs with
  | [] => (pool, [])
  | c :: rest =>
      match do_call pool c with
      | Some pool' => do_calls pool' rest
      | None => (pool, cs)
      end
  end.

(** ** The chain of parents, and the dispatch of an event *)

(** The injector reached from [i] by following [parent] [n] times. *)
Fixpoint nth_ancestor (h : gmap addr injector) (n : nat) (i : addr) : option addr :=
  match n with
  | O => Some i
  | S m => inj ← h !! i; p ← parent inj; nth_ancestor h m p
  end.

(** What [Get] reads of an injector: its map and its parent. *)
Definition registry_of (h : gmap addr injector) (a : addr)
  : option (gmap reflect_Type Value * option addr) :=
  (fun inj => (values inj, parent inj)) <$> h !! a.

(** The injector a call changes. *)
Definition target (u : update) : addr :=
  match u with
  | do_Map i _ | do_MapTo i _ _ | do_Set i _ _ | do_SetParent i _ | do_On i _ _ => i
  end.

(** How the struct [Event] is laid out as the content of a Value is left
    open. *)
Class EventLayout := { Event_data : Event -> data }.

(** The functions that are registered as handlers.  A handler receives
    the injector as [e.Src] and can call its methods, so the state that
    its body reads and changes includes the heap of injectors.  What else
    it does, on channels too, is in the rest of the state; a handler that
    waits for ever does not return. *)
Class Handlers := {
  State : Type;
  handler_call : nat -> list Value -> State * gmap addr injector
                 -> (State * gmap addr injector) * outcome (list Value);
}.

#[global] Instance Handlers_Funcs `{Handlers} : Funcs :=
  {| World := State * gmap addr injector; fn_call := handler_call |}.

Section Dispatch.
Context {R : Reflect} {L : EventLayout} {H : Handlers}.

(** The injectors as they are in a state of the world. *)
Definition heap_of (w : world) : gmap addr injector := (w_state w).2.

Definition with_heap (h : gmap addr injector) (w : world) : world :=
  mkWorld ((w_state w).1, h) (w_calls w).

(** [reflect.ValueOf(e)] for an Event. *)
Definition ValueOf_Event (e : Event) : Value := Val EventType (Event_data e) None false.

(** The injector [i] has the event bound to the Event type, and the
    handlers [hs] registered for the kind of the event. *)
Definition dispatching (i : addr) (e : Event) (hs : slice Handler)
    (h : gmap addr injector) : Prop :=
  exists inj, h !! i = Some inj
              /\ values inj !! Some EventType = Some (ValueOf_Event e)
              /\ handlers_at (handlers inj) (Type_ e) = hs.

(** [for _, h := range hs { i.Invoke(h) }]: every [Invoke] reads the
    injector as the handlers before it left it; what [Invoke] returns is
    dropped, results and error alike; a panic ends the loop.  The [k]-th
    handler has its own oracles for the order of the maps. *)
Fixpoint Invoke_all (ordss : nat -> nat -> range_oracle) (fuel : nat)
    (i : addr) (hs : list Handler) (k : nat) (w : world) : world * outcome unit :=
  match hs with
  | [] => (w, Ret ())
  | hd :: rest =>
      match Invoke (ordss k) fuel (heap_of w) i hd w with
      | (w', Ret _) => Invoke_all ordss fuel i rest (S k) w'
      | (w', Panic msg) => (w', Panic msg)
      | (w', Timeout) => (w', Timeout)
      end
  end.

(** [run], read as it is meant: [i.Set(Event.Type, e)] binds the Value of
    the event to the descriptor of Event, and [i.parent.Events <- e] sends
    the event on the events channel of the parent.  The result is the
    world, with the injectors in it, and the channel operations that [run]
    itself has to perform before it returns. *)
Definition run (ordss : nat -> nat -> range_oracle) (fuel : nat)
    (i : addr) (e : Event) (w : world) : world * outcome (list chan_op) :=
  match heap_at (heap_of w) i with
  | Ret inj =>
      match handlers_at (handlers inj) (Type_ e) with
      | None =>
          match parent inj with
          | None => (w, Panic ("unknow event type  " +:+ Type_ e))
          | Some p => (w, Ret [Send_events p e])
          end
      | Some hs =>
          match Set_ (heap_of w) i (Some EventType) (ValueOf_Event e) with
          | Ret h1 =>
              let '(w1, r) := Invoke_all ordss fuel i hs 0 (with_heap h1 w) in
              (w1, _ ← r; Ret [])
          | Panic msg => (w, Panic msg)
          | Timeout => (w, Timeout)
          end
      end
  | Panic msg => (w, Panic msg)
  | Timeout => (w, Timeout)
  end.

End Dispatch.

(** ** Handler slices and their arrays

    [On] stores the slice it is given ([i.handlers[key] = handlers]) and
    [append] writes into the array of its first argument where the capacity
    allows, so entries of the handler table can share an array, with each
    other and with slices of the caller.  The handler table above holds
    the elements of every slice; here a slice is its header and the arrays
    are in a store of their own.  A call [On(key, h1, h2)] passes a slice on
    a new array of exactly two elements, [On(key, s...)] passes [s] itself,
    and [On(key)] passes nil. *)

Record slice_header : Type := mkSlice {
  s_array : nat;
  s_off : nat;
  s_len : nat;
  s_cap : nat;
}.

Definition array_at (A : gmap nat (list Handler)) (a : nat) : list Handler :=
  default [] (A !! a).

(** The elements of a slice, nil or not. *)
Definition elements (A : gmap nat (list Handler)) (s : option slice_header) : slice Handler :=
  (fun hd => take (s_len hd) (drop (s_off hd) (array_at A (s_array hd)))) <$> s.

(** The array [l] with [xs] copied to the positions from [pos] on. *)
Definition write (pos : nat) (xs l : list Handler) : list Handler :=
  take pos l ++ xs ++ drop (pos + length xs) l.

(** [append(s, xs...)] for a slice [s] that is not nil.  When the capacity
    does not allow the elements, they go with the old ones to a new array,
    whose capacity the runtime chooses ([grow], from the old capacity and
    the length needed). *)
Definition append_slice (grow : nat -> nat -> nat) (A : gmap nat (list Handler))
    (s : slice_header) (xs : list Handler) : gmap nat (list Handler) * slice_header :=
  let n := s_len s + length xs in
  if decide (n <= s_cap s) then
    (<[s_array s := write (s_off s + s_len s) xs (array_at A (s_array s))]> A,
     mkSlice (s_array s) (s_off s) n (s_cap s))
  else
    let a := fresh (dom A) in
    let c := n `max` grow (s_cap s) n in
    (<[a := range_slice (elements A (Some s)) ++ xs ++ replicate (c - n) None]> A,
     mkSlice a 0 n c).

Definition slices_at (tbl : gmap string (option slice_header)) (key : string)
  : option slice_header :=
  default None (tbl !! key).

Section Slices.
Context {R : Reflect}.

(** [On] on the handler table of one injector. *)
Definition On_slices (grow : nat -> nat -> nat) (A : gmap nat (list Handler))
    (tbl : gmap string (option slice_header)) (key : string) (arg : option slice_header)
  : outcome (gmap nat (list Handler) * gmap string (option slice_header)) :=
  let hs := range_slice (elements A arg) in
  _ ← validate_all hs;
  match slices_at tbl key with
  | None => Ret (A, <[key := arg]> tbl)
  | Some s =>
      let '(A', s') := append_slice grow A s hs in
      Ret (A', <[key := Some s']> tbl)
  end.

End Slices.

(** The handler table as the model above has it. *)
Definition table_of (A : gmap nat (list Handler)) (tbl : gmap string (option slice_header))
  : gmap string (slice Handler) :=
  elements A <$> tbl.

(** A slice lies within its array. *)
Definition within (A : gmap nat (list Handler)) (s : slice_header) : Prop :=
  is_Some (A !! s_array s)
  /\ s_len s <= s_cap s
  /\ s_off s + s_cap s <= length (array_at A (s_array s)).

(** No two entries of the table are on the same array, and the slice
    [arg] is on an array of its own. *)
Definition separate (tbl : gmap string (option slice_header)) : Prop :=
  forall k1 k2 s1 s2,
    k1 <> k2 -> tbl !! k1 = Some (Some s1) -> tbl !! k2 = Some (Some s2) ->
    s_array s1 <> s_array s2.

Definition apart (tbl : gmap string (option slice_header)) (arg : option slice_header) : Prop :=
  forall a key s, arg = Some a -> tbl !! key = Some (Some s) -> s_array s <> s_array a.

(** ** A small program, for the examples

    [type Stringer interface { String() string }], [type Reader interface
    { Read() }], [type Name string] with a method [String], and
    [type Service struct { Greeting string `inject`; Note string; Count int
    `inject`; hidden string `inject` }] and [type Secret struct { hidden int
    `inject` }]. *)

Module T.
Definition int : tid := 0.
Definition string : tid := 1.
Definition Stringer : tid := 2.
Definition ptr_Stringer : tid := 3.
Definition Name : tid := 4.
Definition func_int : tid := 5.           (* func(int) *)
Definition Event : tid := 6.
Definition Service : tid := 7.
Definition ptr_Service : tid := 8.
Definition func_Stringer_int : tid := 9.  (* func(Stringer, int) *)
Definition func_variadic : tid := 10.     (* func(...int) *)
Definition slice_int : tid := 11.         (* []int *)
Definition func_Event : tid := 12.        (* func(Event) *)
Definition Reader : tid := 13.
Definition ptr_Reader : tid := 14.
Definition func_string : tid := 15.       (* func(string) *)
Definition Secret : tid := 16.            (* struct { hidden int `inject` } *)
Definition ptr_Secret : tid := 17.
End T.

Definition demo_Kind (t : tid) : kind :=
  match t with
  | 0 => KInt | 1 => KString | 2 => KInterface | 3 => KPtr | 4 => KString
  | 5 => KFunc | 6 => KStruct | 7 => KStruct | 8 => KPtr | 9 => KFunc
  | 10 => KFunc | 11 => KSlice | 12 => KFunc | 13 => KInterface | 14 => KPtr
  | 15 => KFunc | 16 => KStruct | 17 => KPtr
  | _ => KInvalid
  end.

Definition demo_Elem (t : tid) : tid :=
  match t with
  | 3 => T.Stringer | 8 => T.Service | 11 => T.int | 14 => T.Reader
  | 17 => T.Secret
  | _ => t
  end.

Definition demo_ins (t : tid) : list tid :=
  match t with
  | 5 => [T.int]
  | 9 => [T.Stringer; T.int]
  | 10 => [T.slice_int]
  | 12 => [T.Event]
  | 15 => [T.string]
  | _ => []
  end.

Definition demo_fields (t : tid) : list StructField :=
  match t with
  | 7 => [ mkStructField "Greeting" "" T.string "inject";
           mkStructField "Note" "" T.string "";
           mkStructField "Count" "" T.int "inject";
           mkStructField "hidden" "main" T.string "inject" ]
  | 16 => [ mkStructField "hidden" "main" T.int "inject" ]
  | _ => []
  end.

Definition demo_String (t : tid) : string :=
  match t with
  | 0 => "int" | 1 => "string" | 2 => "main.Stringer" | 3 => "*main.Stringer"
  | 4 => "main.Name" | 5 => "func(int)" | 6 => "inject.Event" | 7 => "main.Service"
  | 8 => "*main.Service" | 9 => "func(main.Stringer, int)" | 10 => "func(...int)"
  | 11 => "[]int" | 12 => "func(inject.Event)" | 13 => "main.Reader"
  | 14 => "*main.Reader" | 15 => "func(string)" | 16 => "main.Secret"
  | 17 => "*main.Secret"
  | _ => "?"
  end.

Definition demo_reflect : Reflect := {|
  rtype_Kind := demo_Kind;
  rtype_Elem := demo_Elem;
  rtype_ins := demo_ins;
  rtype_IsVariadic := fun t => bool_decide (t = T.func_variadic);
  rtype_fields := demo_fields;
  rtype_String := demo_String;
  implements := fun I V =>
    bool_decide (I = T.Stringer ∧ (V = T.Name ∨ V = T.Stringer))
    || bool_decide (I = T.Reader ∧ V = T.Reader);
  directlyAssignable := fun dst V => bool_decide (dst = V);
  StructTag_Get := fun _ _ => "";
  EventType := T.Event;
  directlyAssignable_refl := fun t => bool_decide_eq_true_2 (t = t) eq_refl;
|}.

(** Every function of the example counts its calls and returns nothing. *)
Definition demo_funcs : Funcs := {|
  World := nat;
  fn_call := fun _ _ n => (S n, Ret []);
|}.

Definition demo_world : @world demo_funcs := mkWorld (0 : @World demo_funcs) [].

(** The map is visited in the order of [map_to_list]. *)
Definition demo_order : range_oracle := fun _ m => map_to_list m.

Definition a_name : iface := Some (T.Name, DString "gopher").
Definition a_string : iface := Some (T.string, DString "hello").
Definition an_int : iface := Some (T.int, DWord 7).
Definition nil_ptr_Stringer : iface := Some (T.ptr_Stringer, DPtr None).
Definition nil_ptr_Reader : iface := Some (T.ptr_Reader, DPtr None).

(** One empty injector at address 0. *)
Definition heap0 : gmap addr injector := {[ 0 := mkInjector ∅ ∅ None ]}.

(** A child at 0 that binds a Name, with the parent 1 that binds the string. *)
Definition child_named : injector :=
  mkInjector {[ Some T.Name := ValueOf a_name ]} ∅ (Some 1).

Definition heap_named : gmap addr injector :=
  {[ 0 := child_named;
     1 := mkInjector {[ Some T.string := ValueOf a_string ]} ∅ None ]}.

(** The same two injectors before [SetParent]. *)
Definition heap_unlinked : gmap addr injector :=
  {[ 0 := mkInjector {[ Some T.Name := ValueOf a_name ]} ∅ None;
     1 := mkInjector {[ Some T.string := ValueOf a_string ]} ∅ None ]}.

(** A child and a parent that both bind a string. *)
Definition another_string : iface := Some (T.string, DString "child").
Definition heap_both : gmap addr injector :=
  {[ 0 := mkInjector {[ Some T.string := ValueOf another_string ]} ∅ None;
     1 := mkInjector {[ Some T.string := ValueOf a_string ]} ∅ None ]}.

(** A parent that binds a Name as a Stringer, and a child that maps
    another Name. *)
Definition another_name : iface := Some (T.Name, DString "child").
Definition heap_implementor : gmap addr injector :=
  {[ 0 := mkInjector {[ Some T.Name := ValueOf another_name ]} ∅ (Some 1);
     1 := mkInjector {[ Some T.Stringer := ValueOf a_name ]} ∅ None ]}.

(** Every [Get] of the examples visits the map in the same order. *)
Definition demo_orders : nat -> range_oracle := fun _ => demo_order.

(** An injector that binds the string only, and one that binds an int too. *)
Definition string_only : injector :=
  mkInjector {[ Some T.string := ValueOf a_string ]} ∅ None.
Definition heap_string : gmap addr injector := {[ 0 := string_only ]}.
Definition heap_string_int : gmap addr injector :=
  {[ 0 := mkInjector {[ Some T.string := ValueOf a_string;
                        Some T.int := ValueOf an_int ]} ∅ None ]}.

(** An injector that binds a slice of int. *)
Definition a_slice : iface := Some (T.slice_int, DSlice (Some [DWord 1; DWord 2])).
Definition heap_slice : gmap addr injector :=
  {[ 0 := mkInjector {[ Some T.slice_int := ValueOf a_slice ]} ∅ None ]}.

(** An injector to which a string was bound as a Stringer, and an int. *)
Definition heap_mismatch : gmap addr injector :=
  {[ 0 := mkInjector {[ Some T.Stringer := ValueOf a_string;
                        Some T.int := ValueOf an_int ]} ∅ None ]}.

(** An injector with a handler list registered under "greet". *)
Definition a_handler : Handler := Some (T.func_Event, DFunc (Some 0)).
Definition a_func_int : iface := Some (T.func_int, DFunc (Some 1)).
Definition a_func_string : iface := Some (T.func_string, DFunc (Some 2)).
Definition a_func_Stringer_int : iface := Some (T.func_Stringer_int, DFunc (Some 3)).
Definition a_func_variadic : iface := Some (T.func_variadic, DFunc (Some 4)).
Definition heap_greet : gmap addr injector :=
  {[ 0 := mkInjector ∅ {[ "greet" := Some [a_handler] ]} None ]}.

(** Memory with a Service at 0 and a Secret at 1. *)
Definition a_service : data :=
  DStruct [DString ""; DString "keep me"; DWord 0; DString ""].
Definition a_secret : data := DStruct [DWord 0].
Definition demo_memory : memory :=
  fun l => match l with 0 => a_service | 1 => a_secret | _ => DWord 0 end.
Definition ptr_to_service : iface := Some (T.ptr_Service, DPtr (Some 0)).
Definition ptr_to_secret : iface := Some (T.ptr_Secret, DPtr (Some 1)).
Definition service_by_value : iface := Some (T.Service, a_service).

(** An injector that binds an int and is its own parent, and a chain of three injectors of
    which the last one binds the string. *)
Definition heap_cycle : gmap addr injector :=
  {[ 0 := mkInjector {[ Some T.int := ValueOf an_int ]} ∅ (Some 0) ]}.
Definition heap_chain : gmap addr injector :=
  {[ 0 := mkInjector ∅ ∅ (Some 1);
     1 := mkInjector {[ Some T.int := ValueOf an_int ]} ∅ (Some 2);
     2 := mkInjector {[ Some T.string := ValueOf a_string ]} ∅ None ]}.

(** An Event as a struct of three fields. *)
Definition demo_layout : EventLayout :=
  {| Event_data := fun e => DStruct [DWord (Z.of_nat (Src e)); DString (Type_ e); DIface (Data e)] |}.

(** Two handlers [func(Event)] registered under "greet", and the handler
    [func(int)] alone. *)
Definition another_handler : Handler := Some (T.func_Event, DFunc (Some 5)).
Definition heap_two_handlers : gmap addr injector :=
  {[ 0 := mkInjector ∅ {[ "greet" := Some [a_handler; another_handler] ]} None ]}.
Definition heap_int_handler : gmap addr injector :=
  {[ 0 := mkInjector ∅ {[ "greet" := Some [a_func_int] ]} None ]}.
Definition greeting : Event := mkEvent 0 "greet" a_string.
Definition demo_orderss : nat -> nat -> range_oracle := fun _ _ => demo_order.

(** The handlers of the example count their calls and return nothing.
    Handler 7 also binds another event to the Event type in injector 0; the
    others leave the injectors as they are. *)
Definition farewell : Event := mkEvent 0 "greet" an_int.
Definition rebinding (h : gmap addr injector) : gmap addr injector :=
  match h !! 0 with
  | Some inj =>
      <[0 := bind_value inj (Some T.Event)
               (ValueOf_Event (R := demo_reflect) (L := demo_layout) farewell)]> h
  | None => h
  end.
Definition demo_handlers : Handlers := {|
  State := nat;
  handler_call := fun fid _ s =>
    ((S s.1, if decide (fid = 7) then rebinding s.2 else s.2), Ret []);
|}.
Definition world_of (h : gmap addr injector) : @world (@Handlers_Funcs demo_handlers) :=
  @mkWorld (@Handlers_Funcs demo_handlers) (0, h) [].
Definition rebinding_handler : Handler := Some (T.func_Event, DFunc (Some 7)).
Definition heap_rebinding : gmap addr injector :=
  {[ 0 := mkInjector ∅ {[ "greet" := Some [rebinding_handler; another_handler] ]} None ]}.

(** The arrays of the example: the array of a slice made with room for
    four handlers, of which the first is set, and the arrays of two
    argument lists of one handler. *)
Definition demo_arrays : gmap nat (list Handler) :=
  {[ 0 := [a_handler; None; None; None];
     1 := [another_handler];
     2 := [rebinding_handler] ]}.
Definition roomy_slice : slice_header := mkSlice 0 0 1 4.
Definition shared_table : gmap string (option slice_header) :=
  {[ "a" := Some roomy_slice; "b" := Some roomy_slice ]}.
Definition greet_arrays : gmap nat (list Handler) :=
  {[ 0 := [a_handler]; 1 := [another_handler] ]}.
Definition greet_table : gmap string (option slice_header) :=
  {[ "greet" := Some (mkSlice 0 0 1 1) ]}.
Definition doubling : nat -> nat -> nat := fun c _ => 2 * c.

(** A child without handlers whose parent handles "greet". *)
Definition heap_forward : gmap addr injector :=
  {[ 0 := mkInjector ∅ ∅ (Some 1);
     1 := mkInjector ∅ {[ "greet" := Some [a_handler] ]} None ]}.

(** * Properties *)

(** Every entry of the map is a binding: a type descriptor and a value.
    [Map(nil)] and [Set] with a nil type or the zero Value store entries
    that are not. *)
Definition bindings (m : gmap reflect_Type Value) : Prop :=
  forall k v, m !! k = Some v -> k <> None /\ IsValid v = true.

Section Properties.
Context {R : Reflect} {F : Funcs}.

Implicit Types (h : gmap addr injector) (m : gmap reflect_Type Value).
Implicit Types (t k : tid) (v : Value).

(** ** The loop over the map *)

Lemma range_implementors_first t val pre k v post :
  rtype_Kind t = KInterface ->
  (forall (key : reflect_Type) w, (key, w) ∈ pre ->
     exists kt, key = Some kt /\ implements t kt = false) ->
  implements t k = true ->
  range_implementors (Some t) val (pre ++ (Some k, v) :: post) = Ret v.
Proof.
  intros Hk Hpre Himpl. induction pre as [|[key w] pre IH]; simpl.
  - destruct (decide _) as [|[]]; [|done]. simpl. by rewrite Himpl.
  - destruct (Hpre key w) as (kt & -> & Hno); [left|]. simpl.
    destruct (decide _) as [|[]]; [|done]. simpl. rewrite Hno.
    apply IH. intros key' w' Hin. apply (Hpre key' w'). by right.
Qed.

Lemma range_implementors_none t val entries :
  rtype_Kind t = KInterface ->
  (forall (key : reflect_Type) w, (key, w) ∈ entries ->
     exists kt, key = Some kt /\ implements t kt = false) ->
  range_implementors (Some t) val entries = Ret val.
Proof.
  intros Hk Hall. induction entries as [|[key w] es IH]; simpl; [done|].
  destruct (Hall key w) as (kt & -> & Hno); [left|]. simpl.
  destruct (decide _) as [|[]]; [|done]. simpl. rewrite Hno.
  apply IH. intros key' w' Hin. apply (Hall key' w'). by right.
Qed.

Lemma enumerates_elem ord i m (key : reflect_Type) w :
  enumerates ord -> (key, w) ∈ ord i m <-> m !! key = Some w.
Proof.
  intros Hord. rewrite (Hord i m). apply (elem_of_map_to_list m key w).
Qed.

Lemma values_at_Some m (ty : reflect_Type) v : m !! ty = Some v -> values_at m ty = v.
Proof. unfold values_at. by intros ->. Qed.

Lemma values_at_None m (ty : reflect_Type) : m !! ty = None -> values_at m ty = ZeroValue.
Proof. unfold values_at. by intros ->. Qed.

Lemma Get_unfold ord fuel h i (ty : reflect_Type) :
  Get ord (S fuel) h i ty =
    inj ← heap_at h i;
    let val := values_at (values inj) ty in
    if IsValid val then Ret val else
    k ← Type_Kind ty;
    val ← (if decide (k = KInterface)
           then range_implementors ty val (ord i (values inj))
           else Ret val);
    match IsValid val, parent inj with
    | false, Some p => Get ord fuel h p ty
    | _, _ => Ret val
    end.
Proof. reflexivity. Qed.

#[local] Arguments Get : simpl never.

(** One step of [Get] when the map has no valid value for the type. *)
Lemma Get_miss ord fuel h i inj (ty : reflect_Type) :
  h !! i = Some inj ->
  IsValid (values_at (values inj) ty) = false ->
  Get ord (S fuel) h i ty =
    k ← Type_Kind ty;
    val ← (if decide (k = KInterface)
           then range_implementors ty (values_at (values inj) ty) (ord i (values inj))
           else Ret (values_at (values inj) ty));
    match IsValid val, parent inj with
    | false, Some p => Get ord fuel h p ty
    | _, _ => Ret val
    end.
Proof.
  intros Hi Hinv. rewrite Get_unfold. unfold heap_at. rewrite Hi. simpl.
  by rewrite Hinv.
Qed.

Lemma Get_hit ord fuel h i inj (ty : reflect_Type) v :
  h !! i = Some inj -> values inj !! ty = Some v -> IsValid v = true ->
  Get ord (S fuel) h i ty = Ret v.
Proof.
  intros Hi Hv Hvalid. rewrite Get_unfold. unfold heap_at. rewrite Hi. simpl.
  by rewrite (values_at_Some _ _ _ Hv), Hvalid.
Qed.

(** C1. The resolution order of [Get], for a type descriptor [t]:
    - a value bound to [t] itself in the local map is returned at once;
    and, on an injector whose entries are all bindings,
    - otherwise, when [t] is an interface type, the value of the first
      entry, in the order the loop visits the map, whose key implements [t]
      is returned;
    - otherwise the result is that of [Get] on the parent when there is one
      (the same function, one level up the chain), and the zero Value,
      returned normally, when there is none. *)
Theorem Get_resolution_order ord fuel h i inj t :
  enumerates ord ->
  h !! i = Some inj ->
  (forall v, values inj !! Some t = Some v -> IsValid v = true ->
     Get ord (S fuel) h i (Some t) = Ret v)
  /\ (bindings (values inj) ->
      values inj !! Some t = None ->
      (rtype_Kind t = KInterface ->
       forall pre k v post,
         ord i (values inj) = pre ++ (Some k, v) :: post ->
         (forall k' v', (Some k', v') ∈ pre -> implements t k' = false) ->
         implements t k = true ->
         Get ord (S fuel) h i (Some t) = Ret v)
      /\ (rtype_Kind t <> KInterface
          \/ (forall k v, values inj !! Some k = Some v -> implements t k = false) ->
          Get ord (S fuel) h i (Some t) =
            match parent inj with
            | Some p => Get ord fuel h p (Some t)
            | None => Ret ZeroValue
            end)).
Proof.
  intros Hord Hi. split; [|intros Hwf Hnone; split].
  - intros v Hv Hvalid. by eapply Get_hit.
  - intros Hk pre k v post Hsplit Hpre Himpl.
    rewrite (Get_miss _ _ _ _ inj) by (done || by rewrite values_at_None).
    simpl. destruct (decide _) as [_|[]]; [|done].
    rewrite Hsplit, (range_implementors_first t _ pre k v post); [|done| |done].
    + simpl. assert (IsValid v = true) as ->; [|done].
      eapply (Hwf (Some k)), (enumerates_elem ord i); [done|].
      rewrite Hsplit. set_solver.
    + intros key w Hin. assert (values inj !! key = Some w) as Hkey.
      { eapply (enumerates_elem ord i); [done|]. rewrite Hsplit. set_solver. }
      destruct key as [kt|]; [|by destruct (Hwf _ _ Hkey)]. eauto.
  - intros Hcase.
    rewrite (Get_miss _ _ _ _ inj) by (done || by rewrite values_at_None).
    rewrite (values_at_None _ _ Hnone). simpl.
    destruct (decide _) as [Hk|Hk]; simpl.
    + destruct Hcase as [|Hno]; [done|].
      rewrite range_implementors_none; [done..|].
      intros key w Hin%(enumerates_elem ord i); [|done].
      destruct key as [kt|]; [|by destruct (Hwf _ _ Hin)]. eauto.
    + done.
Qed.

(** A result does not depend on the fuel: more fuel gives the same. *)
Lemma Get_fuel_mono ord fuel : forall fuel' h i (ty : reflect_Type) r,
  fuel <= fuel' -> Get ord fuel h i ty = r -> r <> Timeout ->
  Get ord fuel' h i ty = r.
Proof.
  induction fuel as [|fuel IH]; intros fuel' h i ty r Hle Hget Hr.
  { by destruct Hr. }
  destruct fuel' as [|fuel']; [lia|]. rewrite Get_unfold in *.
  destruct (heap_at h i) as [inj| |]; [|done..]. cbn [mbind outcome_bind] in *.
  destruct (IsValid (values_at (values inj) ty)); [done|].
  destruct (Type_Kind ty) as [k| |]; [|done..]. cbn [mbind outcome_bind] in *.
  destruct (if decide (k = KInterface) then _ else _) as [val| |]; [|done..].
  cbn [mbind outcome_bind] in *.
  destruct (IsValid val), (parent inj) as [p|]; try done.
  apply IH; [lia|done..].
Qed.

(** ** Binding and looking up *)




Lemma strip_pointers_pointer fuel pt :
  rtype_Kind pt = KPtr -> rtype_Kind (rtype_Elem pt) = KInterface ->
  strip_pointers (S (S fuel)) pt = Ret (rtype_Elem pt).
Proof.
  intros Hp HI. simpl. destruct (decide _) as [_|[]]; [|done].
  destruct (decide _) as [Hbad|_]; [congruence|done].
Qed.

(** C10. [MapTo] makes no check that the value fits the interface: for a
    value [v], of whatever dynamic type, and a pointer [p] to an interface
    type, [MapTo(v, p)] succeeds and binds [v] to the interface type, and a
    following [Get] of that type returns [v] from the lookup in the map
    itself, whatever the order of the loop and whatever the parent. *)
Theorem MapTo_binds_unchecked ord fuel fuel' h i inj vt vd pt pd :
  h !! i = Some inj ->
  rtype_Kind pt = KPtr ->
  rtype_Kind (rtype_Elem pt) = KInterface ->
  exists h1 inj1,
    MapTo (S (S fuel)) h i (Some (vt, vd)) (Some (pt, pd)) = Ret h1
    /\ h1 !! i = Some inj1
    /\ values inj1 !! Some (rtype_Elem pt) = Some (ValueOf (Some (vt, vd)))
    /\ Get ord (S fuel') h1 i (Some (rtype_Elem pt)) = Ret (ValueOf (Some (vt, vd))).
Proof.
  intros Hi Hp HI. unfold MapTo, InterfaceOf. cbn [TypeOf fmap option_fmap option_map fst].
  rewrite strip_pointers_pointer by done. simpl.
  destruct (decide _) as [_|[]]; [|done]. simpl.
  unfold heap_at. rewrite Hi. simpl.
  eexists _, _. split; [done|]. split; [apply lookup_insert_eq|].
  split; [simpl; apply lookup_insert_eq|].
  eapply Get_hit; [apply lookup_insert_eq| |done]. simpl. apply lookup_insert_eq.
Qed.

(** ** Parent and child *)

Lemma range_implementors_cases t val entries :
  rtype_Kind t = KInterface ->
  (forall (key : reflect_Type) w, (key, w) ∈ entries -> key <> None) ->
  (exists k w, (Some k, w) ∈ entries /\ implements t k = true
               /\ range_implementors (Some t) val entries = Ret w)
  \/ ((forall k w, (Some k, w) ∈ entries -> implements t k = false)
      /\ range_implementors (Some t) val entries = Ret val).
Proof.
  intros Hk Hkeys. induction entries as [|[key w] es IH]; simpl.
  - right. split; [|done]. intros k w Hin. by apply elem_of_nil in Hin.
  - destruct key as [kt|]; [|by destruct (Hkeys None w); [left|]]. simpl.
    destruct (decide _) as [_|[]]; [|done]. simpl.
    destruct (implements t kt) eqn:Himpl.
    + left. exists kt, w. split; [left|done].
    + destruct IH as [(k & w' & Hin & Hi & Hr)|[Hno Hr]].
      * intros key w' Hin. apply (Hkeys key w'). by right.
      * left. exists k, w'. split; [by right|done].
      * right. split; [|done]. intros k w' [[= -> ->]|Hin]%elem_of_cons; eauto.
Qed.

(** C3. A child whose parent was set with [SetParent], and whose own
    entries are bindings.  A type the parent binds and the child does not
    is resolved by the child's [Get]: to the parent's value, unless the type
    is an interface that one of the child's own keys implements, whose value
    is then returned.  A type the child binds resolves to the child's
    binding, whatever the parent binds. *)
Theorem child_Get_through_parent ord fuel h c p child par t v :
  enumerates ord ->
  h !! c = Some child -> h !! p = Some par -> c <> p ->
  bindings (values child) ->
  values par !! Some t = Some v -> IsValid v = true ->
  exists h1,
    SetParent h c (Some p) = Ret h1
    /\ (values child !! Some t = None ->
        exists w,
          Get ord (S (S fuel)) h1 c (Some t) = Ret w
          /\ IsValid w = true
          /\ (w = v
              \/ rtype_Kind t = KInterface
                 /\ exists k, values child !! Some k = Some w /\ implements t k = true)
          /\ (rtype_Kind t <> KInterface
              \/ (forall k u, values child !! Some k = Some u -> implements t k = false) ->
              w = v))
    /\ (forall w, values child !! Some t = Some w ->
          Get ord (S (S fuel)) h1 c (Some t) = Ret w).
Proof.
  intros Hord Hc Hp Hne Hwf Hv Hvalid.
  unfold SetParent, heap_at. rewrite Hc. simpl. eexists; split; [done|].
  set (child' := mkInjector (values child) (handlers child) (Some p)).
  set (h1 := <[c:=child']> h).
  assert (h1 !! c = Some child') as Hc1 by apply lookup_insert_eq.
  assert (h1 !! p = Some par) as Hp1 by (subst h1; by rewrite lookup_insert_ne).
  assert (Get ord (S fuel) h1 p (Some t) = Ret v) as Hpar by by eapply Get_hit.
  split.
  - intros Hnone.
    rewrite (Get_miss _ _ _ _ child') by (done || by rewrite values_at_None).
    cbn [values parent child'] in *. rewrite (values_at_None _ _ Hnone).
    cbn [Type_Kind mbind outcome_bind].
    destruct (decide (rtype_Kind t = KInterface)) as [Hk|Hk].
    + destruct (range_implementors_cases t ZeroValue (ord c (values child)) Hk)
        as [(k & w & Hin & Himpl & ->)|[Hno ->]].
      * intros key w Hin%(enumerates_elem ord c); [|done]. by destruct (Hwf _ _ Hin).
      * apply (enumerates_elem ord c) in Hin; [|done].
        destruct (Hwf _ _ Hin) as [_ Hw]. cbn [mbind outcome_bind]. rewrite Hw.
        exists w. split; [done|]. split; [done|]. split; [right; eauto|].
        intros [?|Hall]; [done|]. rewrite (Hall _ _ Hin) in Himpl. done.
      * cbn [mbind outcome_bind IsValid]. rewrite Hpar. exists v. eauto.
    + cbn [mbind outcome_bind IsValid]. rewrite Hpar. exists v. eauto.
  - intros w Hw. destruct (Hwf _ _ Hw) as [_ Hwv]. by eapply Get_hit.
Qed.

(** ** The event bus *)

(** The check of the first parameter is only reached for a func without
    parameters: every func with at least one parameter passes. *)
Lemma validateHandler_func_with_parameters t d :
  rtype_Kind t = KFunc -> rtype_ins t <> [] ->
  validateHandler (Some (t, d)) = Ret ().
Proof.
  intros Hk Hins. unfold validateHandler. simpl.
  destruct (decide (rtype_Kind t ≠ KFunc)) as [|_]; [done|].
  destruct (decide (rtype_Kind t = KFunc)) as [_|]; [|done]. simpl.
  destruct (decide (length (rtype_ins t) = 0)) as [Hz|_]; [|done].
  by destruct (rtype_ins t).
Qed.

(** C8, as the code has it.  [Fire] on an injector whose handler table
    has no slice under the kind (the entry is nil) does nothing: no channel
    operation, and the payload is dropped.  When the entry is a slice that
    is not nil, as it is after every [On] with a slice that is not nil,
    even an empty one, it sends on the injector's own events channel one
    Event, whose source is the injector, whose type is the kind and whose
    data is the payload.  An [On] without handlers (a nil slice) leaves
    [Fire] as it was. *)
Theorem Fire_sends_when_registered h i inj key data :
  h !! i = Some inj ->
  (handlers_at (handlers inj) key = None -> Fire h i key data = Ret [])
  /\ (forall hs, handlers_at (handlers inj) key = Some hs ->
        exists e, Fire h i key data = Ret [Send_events i e]
                  /\ Src e = i /\ Type_ e = key /\ Data e = data)
  /\ (forall hs h1, On h i key (Some hs) = Ret h1 ->
        exists e, Fire h1 i key data = Ret [Send_events i e]
                  /\ Src e = i /\ Type_ e = key /\ Data e = data)
  /\ (forall h1, On h i key None = Ret h1 -> Fire h1 i key data = Fire h i key data).
Proof.
  intros Hi. split; [|split; [|split]].
  - unfold Fire, heap_at. rewrite Hi. simpl. by intros ->.
  - intros hs Hhs. unfold Fire, heap_at. rewrite Hi. simpl. rewrite Hhs.
    by eexists.
  - intros hs h1. unfold On.
    destruct (validate_all _); [|done..]. cbn [mbind outcome_bind].
    unfold heap_at. rewrite Hi. cbn [mbind outcome_bind]. intros [= <-].
    unfold Fire, heap_at. rewrite lookup_insert_eq. cbn [mbind outcome_bind handlers].
    unfold handlers_at at 1. rewrite lookup_insert_eq. cbn [default].
    destruct (handlers_at (handlers inj) key); by eexists.
  - intros h1. unfold On. cbn [range_slice default validate_all mbind outcome_bind].
    unfold heap_at. rewrite Hi. cbn [mbind outcome_bind]. intros [= <-].
    unfold Fire, heap_at. rewrite lookup_insert_eq, Hi. cbn [mbind outcome_bind handlers].
    unfold handlers_at at 1. rewrite lookup_insert_eq. cbn [default].
    by destruct (handlers_at (handlers inj) key).
Qed.

(** C9, as the code has it.  [Stop] returns exactly when a dispatch loop of
    the injector waits in its [select], and ends that one loop: [Start]
    followed by [Stop] returns and leaves the pool as it was.  [Stop]
    blocks when no loop of the injector waits: none was started, every one
    was stopped, or the loop is inside [run] with an event it received. *)
Theorem Stop_returns_iff_loop_waits pool i :
  (is_Some (Stop pool i) <-> dispatch_loop i ∈ pool)
  /\ (forall pool', Stop pool i = Some pool' -> pool ≡ₚ dispatch_loop i :: pool')
  /\ do_calls pool [call_Start i; call_Stop i] = (pool, [])
  /\ (dispatch_loop i ∉ pool -> do_calls pool [call_Stop i] = (pool, [call_Stop i]))
  /\ (dispatch_loop i ∉ pool -> forall e,
        do_calls pool [call_Start i; call_send (Send_events i e); call_Stop i]
        = (in_run i e :: pool, [call_Stop i])).
Proof.
  assert (forall pool', send pool (Send_stopped i true) = Some pool' ->
                        pool ≡ₚ dispatch_loop i :: pool') as Hperm.
  { induction pool as [|[j|j e] pool IH]; intros pool'; cbn [send receives]; [done| |].
    - case_bool_decide as Hj.
      + intros [= <-]. by rewrite Hj.
      + destruct (send pool _) as [rest|]; cbn; [|done].
        intros [= <-]. rewrite (IH rest eq_refl). apply Permutation_swap.
    - destruct (send pool _) as [rest|]; cbn; [|done].
      intros [= <-]. rewrite (IH rest eq_refl). apply Permutation_swap. }
  assert (send pool (Send_stopped i true) = None -> dispatch_loop i ∉ pool) as Hnone.
  { induction pool as [|[j|j e] pool IH]; cbn [send receives];
      [intros _; apply not_elem_of_nil| |].
    - case_bool_decide as Hj; [done|].
      destruct (send pool _); cbn; [done|].
      intros _ [Heq|Hin]%elem_of_cons; [congruence|]. by apply IH.
    - destruct (send pool _); cbn; [done|].
      intros _ [Heq|Hin]%elem_of_cons; [congruence|]. by apply IH. }
  assert (dispatch_loop i ∉ pool -> send pool (Send_stopped i true) = None) as Hblocks.
  { intros Hnot. destruct (send pool _) as [pool'|] eqn:Hs; [|reflexivity].
    destruct Hnot. rewrite (Hperm _ eq_refl). by left. }
  unfold Stop. split; [|split; [done|split; [|split]]].
  - split.
    + intros [pool' Hs]. rewrite (Hperm _ Hs). by left.
    + intros Hin. destruct (send pool _) eqn:Hs; [done|].
      by destruct (Hnone eq_refl).
  - cbn [do_calls do_call Start]. unfold Stop.
    cbn [send receives after_receive app]. by rewrite bool_decide_eq_true_2.
  - intros Hnot. cbn [do_calls do_call]. unfold Stop. by rewrite Hblocks.
  - intros Hnot e. cbn [do_calls do_call Start send receives after_receive app].
    rewrite bool_decide_eq_true_2 by done. cbn [do_calls do_call]. unfold Stop.
    cbn [send receives fmap option_fmap option_map]. by rewrite Hblocks.
Qed.

(** ** Invoke *)

Lemma Type_In_Some ft i ti :
  rtype_Kind ft = KFunc -> rtype_ins ft !! i = Some ti ->
  Type_In (Some ft) i = Ret (Some ti).
Proof. intros Hk Hi. unfold Type_In. destruct (decide _); [|done]. by rewrite Hi. Qed.

Lemma Invoke_args_found ords fuel h inj ft idxs xs :
  rtype_Kind ft = KFunc ->
  Forall2 (fun i x => exists ti, rtype_ins ft !! i = Some ti
                      /\ Get (ords i) fuel h inj (Some ti) = Ret x
                      /\ IsValid x = true) idxs xs ->
  Invoke_args ords fuel h inj (Some ft) idxs = Ret (inl xs).
Proof.
  intros Hk Hall. induction Hall as [|i x idxs xs (ti & Hi & Hget & Hv) _ IH]; [done|].
  cbn [Invoke_args]. rewrite (Type_In_Some _ _ _ Hk Hi). cbn [mbind outcome_bind].
  rewrite Hget. cbn [mbind outcome_bind]. rewrite Hv. cbn [negb].
  by rewrite IH.
Qed.

Lemma Invoke_args_not_found ords fuel h inj ft pre xs j tj post :
  rtype_Kind ft = KFunc ->
  Forall2 (fun i x => exists ti, rtype_ins ft !! i = Some ti
                      /\ Get (ords i) fuel h inj (Some ti) = Ret x
                      /\ IsValid x = true) pre xs ->
  rtype_ins ft !! j = Some tj ->
  (exists x, Get (ords j) fuel h inj (Some tj) = Ret x /\ IsValid x = false) ->
  Invoke_args ords fuel h inj (Some ft) (pre ++ j :: post)
  = Ret (inr (Errorf_not_found (Some tj))).
Proof.
  intros Hk Hall Hj (x & Hget & Hinv).
  induction Hall as [|i y idxs ys (ti & Hi & Hgeti & Hv) _ IH]; cbn [app Invoke_args].
  - rewrite (Type_In_Some _ _ _ Hk Hj). cbn [mbind outcome_bind].
    rewrite Hget. cbn [mbind outcome_bind]. by rewrite Hinv.
  - rewrite (Type_In_Some _ _ _ Hk Hi). cbn [mbind outcome_bind].
    rewrite Hgeti. cbn [mbind outcome_bind]. rewrite Hv. cbn [negb].
    by rewrite IH.
Qed.

Lemma check_assignable_passable msg xs ts :
  Forall2 passable xs ts -> check_assignable msg xs ts = Ret ().
Proof.
  induction 1 as [|x t xs ts (xt & d & at_ & -> & Ha) _ IH]; [done|].
  cbn [check_assignable Value_Type mbind outcome_bind]. by rewrite Ha.
Qed.

Lemma assignTo_passable context x t :
  passable x t -> exists y, assignTo context x t = Ret y.
Proof.
  intros (xt & d & at_ & -> & Ha). unfold assignTo, AssignableTo in *.
  destruct (directlyAssignable t xt); [eauto|].
  destruct (implements t xt); [eauto|done].
Qed.

Lemma assign_all_passable context xs ts :
  Forall2 passable xs ts ->
  exists args, assign_all context xs ts = Ret args
               /\ Forall2 (fun x_t a => assignTo context x_t.1 x_t.2 = Ret a) (zip xs ts) args.
Proof.
  induction 1 as [|x t xs ts Hp _ (args & IH & Hargs)]; [by exists []|].
  destruct (assignTo_passable context x t Hp) as [y Hy].
  exists (y :: args). cbn [assign_all].
  destruct Hp as (xt & d & at_ & -> & Ha). cbn [must_be_exported mbind outcome_bind].
  rewrite Hy. cbn [mbind outcome_bind]. rewrite IH. split; [done|].
  by constructor.
Qed.

Lemma passable_valid xs ts : Forall2 passable xs ts -> forallb IsValid xs = true.
Proof.
  induction 1 as [|x t xs ts (xt & d & at_ & -> & _) _ IH]; [done|]. simpl. done.
Qed.

Lemma Forall2_seq_lookup {A} (P : nat -> A -> Prop) (xs : list A) n :
  length xs = n ->
  (forall i x, xs !! i = Some x -> P i x) ->
  Forall2 P (seq 0 n) xs.
Proof.
  intros Hlen HP. apply Forall2_same_length_lookup_2.
  - by rewrite length_seq.
  - intros i j x Hj Hx. apply lookup_seq in Hj as [-> _]. by apply HP.
Qed.

(** C4, as the code has it.  [Invoke] looks the parameter types up in
    declared order.  At the first parameter for which [Get] returns the
    zero Value, the ones before it having been found, [Invoke] returns the
    error that names that parameter's type, and the function is not called:
    the world and the record of calls are unchanged.  When every parameter
    type resolves to a value that may be passed for it and the function is
    not variadic, [Invoke] calls the function once, with the values found,
    converted to the parameter types, in declared order, and returns its
    results with a nil error. *)
Theorem Invoke_error_or_call ords fuel h inj ft fd w :
  rtype_Kind ft = KFunc ->
  (forall j tj xs,
      rtype_ins ft !! j = Some tj ->
      length xs = j ->
      (forall i x, xs !! i = Some x ->
         exists ti, rtype_ins ft !! i = Some ti
                    /\ Get (ords i) fuel h inj (Some ti) = Ret x /\ IsValid x = true) ->
      (exists x, Get (ords j) fuel h inj (Some tj) = Ret x /\ IsValid x = false) ->
      Invoke ords fuel h inj (Some (ft, fd)) w
      = (w, Ret (None, Some ("Value not found for type " +:+ rtype_String tj))))
  /\ (forall fid xs,
      fd = DFunc (Some fid) ->
      rtype_IsVariadic ft = false ->
      Forall2 passable xs (rtype_ins ft) ->
      (forall i x, xs !! i = Some x ->
         exists ti, rtype_ins ft !! i = Some ti
                    /\ Get (ords i) fuel h inj (Some ti) = Ret x) ->
      exists args,
        Forall2 (fun x_t a => assignTo "reflect.Value.Call" x_t.1 x_t.2 = Ret a)
                (zip xs (rtype_ins ft)) args
        /\ Invoke ords fuel h inj (Some (ft, fd)) w
           = (mkWorld (fn_call fid args (w_state w)).1 (w_calls w ++ [(fid, args)]),
              rets ← (fn_call fid args (w_state w)).2; Ret (Some rets, None))).
Proof.
  intros Hk. split.
  - intros j tj xs Hj Hlen Hpre Hmiss. unfold Invoke. cbn [TypeOf fmap option_fmap option_map fst].
    unfold Type_NumIn. destruct (decide _) as [_|]; [|done].
    assert (j < length (rtype_ins ft)) as Hlt by (by eapply lookup_lt_Some).
    replace (seq 0 (length (rtype_ins ft)))
      with (seq 0 j ++ j :: seq (S j) (length (rtype_ins ft) - S j)).
    2:{ change (j :: seq (S j) (length (rtype_ins ft) - S j))
          with (seq j (S (length (rtype_ins ft) - S j))).
        rewrite <- (seq_app j _ 0). f_equal. lia. }
    rewrite (Invoke_args_not_found _ _ _ _ _ _ xs j tj); [done..| |done|done].
    by apply Forall2_seq_lookup.
  - intros fid xs -> Hvar Hpass Hget. unfold Invoke. cbn [TypeOf fmap option_fmap option_map fst].
    unfold Type_NumIn. destruct (decide _) as [_|]; [|done].
    pose proof (Forall2_length Hpass) as Hlen.
    rewrite (Invoke_args_found _ _ _ _ _ _ xs); [|done|].
    2:{ apply Forall2_seq_lookup; [done|]. intros i x Hx.
        destruct (Hget i x Hx) as (ti & Hi & Hg). exists ti. split; [done|]. split; [done|].
        destruct (Forall2_lookup_l _ _ _ _ _ Hpass Hx) as (ti' & _ & (xt & d & at_ & -> & _)).
        done. }
    destruct (assign_all_passable "reflect.Value.Call" _ _ Hpass) as (args & Hargs & Hconv).
    exists args. split; [done|].
    cbn [ValueOf Value_Call]. destruct (decide (rtype_Kind ft ≠ KFunc)) as [|_]; [done|].
    unfold Call_args. rewrite Hvar.
    destruct (decide (length xs < length (rtype_ins ft))) as [|_]; [lia|].
    cbn [negb andb]. rewrite bool_decide_eq_false_2 by lia.
    rewrite (passable_valid _ _ Hpass). cbn [negb].
    rewrite (take_ge xs), (take_ge (rtype_ins ft)) by lia.
    rewrite (check_assignable_passable _ _ _ Hpass). cbn [mbind outcome_bind].
    destruct (decide (length xs ≠ length (rtype_ins ft))) as [|_]; [done|].
    rewrite Hargs. by destruct (fn_call fid args (w_state w)).
Qed.

(** ** Apply *)

Lemma data_get_set_other path i j new d :
  i <> j ->
  data_get (path ++ [j]) (data_set (path ++ [i]) new d) = data_get (path ++ [j]) d.
Proof.
  intros Hne. revert d. induction path as [|a path IH]; intros d.
  - destruct d; try done. cbn [app data_set data_get].
    by rewrite list_lookup_alter_ne.
  - destruct d as [| | | |fs| |]; try done. cbn [app data_set data_get].
    rewrite list_lookup_alter_eq.
    destruct (fs !! a) as [x|]; [|done]. cbn [fmap option_fmap option_map mbind option_bind].
    apply IH.
Qed.

Lemma data_get_set_same path new d :
  is_Some (data_get path d) ->
  data_get path (data_set path new d) = Some new.
Proof.
  revert d. induction path as [|a path IH]; intros d; [done|].
  destruct d as [| | | |fs| |]; cbn [data_get data_set]; try by intros [? [=]].
  rewrite list_lookup_alter_eq.
  destruct (fs !! a) as [x|]; cbn [fmap option_fmap option_map mbind option_bind];
    [apply IH|by intros [? [=]]].
Qed.

Lemma Value_Field_addressable t d l path ro i sf :
  rtype_fields t !! i = Some sf ->
  Value_Field (Val t d (Some (l, path)) ro) i
  = Ret (Val (sf_Type sf) (default (DWord 0) (struct_fields d !! i))
           (Some (l, path ++ [i])) (ro || negb (bool_decide (sf_PkgPath sf = "")))).
Proof. intros Hi. cbn [Value_Field]. by rewrite Hi. Qed.

Lemma Value_Set_frame f x mem mem' :
  Value_Set f x mem = Ret mem' ->
  exists ft d0 l q new, f = Val ft d0 (Some (l, q)) false
    /\ mem' = <[l := data_set q new (mem l)]> mem.
Proof.
  destruct f as [|ft d0 [[l q]|] [|]]; try done. cbn [Value_Set].
  destruct (must_be_exported _ x); try done. cbn [mbind outcome_bind].
  destruct (assignTo _ x ft) as [x'| |]; try done. cbn [mbind outcome_bind].
  intros [= <-]. by eexists _, _, _, _, _.
Qed.

(** What the loop of [Apply] leaves alone: everything, when the struct is
    not addressable; else every other variable, and every field of the
    struct that does not carry the tag. *)
Lemma Apply_fields_frame ords fuel h inj t d at_ ro idxs : forall mem mem' r,
  Apply_fields ords fuel h inj (Val t d at_ ro) t idxs mem = (mem', r) ->
  match at_ with
  | None => mem' = mem
  | Some (l, path) =>
      (forall l', l' <> l -> mem' l' = mem l')
      /\ (forall j sf, rtype_fields t !! j = Some sf -> inject_tag sf = false ->
            data_get (path ++ [j]) (mem' l) = data_get (path ++ [j]) (mem l))
  end.
Proof.
  induction idxs as [|i idxs IH]; intros mem mem' r; cbn [Apply_fields].
  { intros [= <- <-]. by destruct at_ as [[l path]|]. }
  destruct (Value_Field _ i) as [f| |] eqn:Hf;
    [|intros [= <- <-]; by destruct at_ as [[??]|]..].
  destruct (rtype_fields t !! i) as [sf|] eqn:Hsf;
    [|intros [= <- <-]; by destruct at_ as [[??]|]].
  destruct (Value_CanSet f && inject_tag sf) eqn:Hset; [|apply IH].
  apply andb_prop in Hset as [Hcan Htag].
  destruct (Value_Type f) as [ft| |]; [|intros [= <- <-]; by destruct at_ as [[??]|]..].
  destruct (Get _ _ _ _ _) as [x| |]; [|intros [= <- <-]; by destruct at_ as [[??]|]..].
  destruct (negb (IsValid x)); [intros [= <- <-]; by destruct at_ as [[??]|]|].
  destruct (Value_Set f x mem) as [mem1| |] eqn:Hs;
    [|intros [= <- <-]; by destruct at_ as [[??]|]..].
  intros Hrest. specialize (IH _ _ _ Hrest).
  apply Value_Set_frame in Hs as (ft' & d0 & l0 & q & new & -> & ->).
  destruct at_ as [[l path]|].
  - rewrite (Value_Field_addressable _ _ _ _ _ _ _ Hsf) in Hf.
    injection Hf as _ _ Hl Hq _. subst l0 q.
    destruct IH as [IH1 IH2]. split.
    + intros l' Hl'. rewrite IH1 by done. by rewrite fn_lookup_insert_ne.
    + intros j sf' Hj Htag'. rewrite (IH2 _ _ Hj Htag'), fn_lookup_insert.
      apply data_get_set_other. intros ->. congruence.
  - cbn [Value_Field] in Hf. rewrite Hsf in Hf. by injection Hf.
Qed.

Lemma follow_pointers_place fuel mem : forall v t d l path ro,
  (forall t' d' l' path' ro', v = Val t' d' (Some (l', path')) ro' -> path' = []) ->
  follow_pointers fuel mem v = Ret (Val t d (Some (l, path)) ro) -> path = [].
Proof.
  induction fuel as [|fuel IH]; intros v t d l path ro Hv; [done|].
  cbn [follow_pointers]. destruct (decide _) as [_|_].
  - apply IH. intros t' d' l' path' ro'. destruct v as [|tv dv av rv]; [done|].
    cbn [Value_Elem]. destruct (ptr_target dv); [|done]. by intros [= _ _ _ <- _].
  - intros [= ->]. by eapply Hv.
Qed.

(** C6. [Apply] writes only to fields that carry the inject tag.  Whatever
    it returns, and also when it panics: every variable other than the
    struct is as before, and so is every field of the struct whose tag does
    not ask for injection; a struct that was passed by value is not written
    to at all.  For an input that is not a struct, or a pointer chain
    ending in something that is not a struct, nothing is written and the
    result is the nil error; when the input is not even a pointer this
    needs no more than one unit of fuel. *)
Theorem Apply_writes_only_tagged_fields ords fuel h inj val mem mem' r :
  Apply ords fuel h inj val mem = (mem', r) ->
  (forall v, follow_pointers fuel mem (ValueOf val) = Ret v ->
     Value_Kind v <> KStruct -> mem' = mem /\ r = Ret None)
  /\ (Value_Kind (ValueOf val) <> KPtr -> Value_Kind (ValueOf val) <> KStruct ->
      forall n, Apply ords (S n) h inj val mem = (mem, Ret None))
  /\ (forall t d ro, follow_pointers fuel mem (ValueOf val) = Ret (Val t d None ro) ->
        mem' = mem)
  /\ (forall t d l path ro,
        follow_pointers fuel mem (ValueOf val) = Ret (Val t d (Some (l, path)) ro) ->
        path = []
        /\ (forall l', l' <> l -> mem' l' = mem l')
        /\ (forall j sf, rtype_fields t !! j = Some sf -> inject_tag sf = false ->
              data_get [j] (mem' l) = data_get [j] (mem l))).
Proof.
  unfold Apply. intros Happly. split; [|split; [|split]].
  - intros v Hv Hk. rewrite Hv in Happly.
    destruct (decide _) as [_|]; [|done]. by injection Happly as <- <-.
  - intros Hptr Hstruct n. cbn [follow_pointers].
    destruct (decide (Value_Kind (ValueOf val) = KPtr)) as [|_]; [done|].
    by destruct (decide (Value_Kind (ValueOf val) ≠ KStruct)).
  - intros t d ro Hv. rewrite Hv in Happly.
    destruct (decide _) as [_|_]; [by injection Happly as <- <-|].
    cbn [Value_Type] in Happly. by apply Apply_fields_frame in Happly.
  - intros t d l path ro Hv. rewrite Hv in Happly.
    assert (path = []) as ->.
    { eapply follow_pointers_place; [|done]. intros t' d' l' path' ro'.
      destruct val as [[??]|]; done. }
    split; [done|].
    destruct (decide _) as [_|_].
    + injection Happly as <- <-. done.
    + cbn [Value_Type] in Happly. by apply Apply_fields_frame in Happly.
Qed.

Lemma Value_Set_passable d0 l q x ft mem :
  passable x ft ->
  exists y, assignTo "reflect.Set" x ft = Ret y
    /\ Value_Set (Val ft d0 (Some (l, q)) false) x mem
       = Ret (<[l := data_set q (Value_data y) (mem l)]> mem).
Proof.
  intros Hp. destruct (assignTo_passable "reflect.Set" x ft Hp) as [y Hy].
  exists y. split; [done|].
  destruct Hp as (xt & d & at_ & -> & _). cbn [Value_Set must_be_exported mbind outcome_bind].
  by rewrite Hy.
Qed.

(** The loop of [Apply] on an addressable struct, up to the first settable
    tagged field without a value. *)
Lemma Apply_fields_stops ords fuel h inj t d l path j sf x post pre : forall mem,
  NoDup pre -> j ∉ pre ->
  (forall i, i ∈ pre -> is_Some (rtype_fields t !! i)) ->
  (forall i sfi, i ∈ pre -> rtype_fields t !! i = Some sfi ->
     sf_PkgPath sfi = "" -> inject_tag sfi = true ->
     exists xi, Get (ords i) fuel h inj (Some (sf_Type sfi)) = Ret xi
                /\ passable xi (sf_Type sfi)) ->
  rtype_fields t !! j = Some sf -> sf_PkgPath sf = "" -> inject_tag sf = true ->
  Get (ords j) fuel h inj (Some (sf_Type sf)) = Ret x -> IsValid x = false ->
  exists mem',
    Apply_fields ords fuel h inj (Val t d (Some (l, path)) false) t (pre ++ j :: post) mem
    = (mem', Ret (Some (Errorf_not_found (Some (sf_Type sf)))))
    /\ (forall i, i ∉ pre ->
          data_get (path ++ [i]) (mem' l) = data_get (path ++ [i]) (mem l))
    /\ (forall i sfi xi y, i ∈ pre -> rtype_fields t !! i = Some sfi ->
          sf_PkgPath sfi = "" -> inject_tag sfi = true ->
          Get (ords i) fuel h inj (Some (sf_Type sfi)) = Ret xi ->
          assignTo "reflect.Set" xi (sf_Type sfi) = Ret y ->
          is_Some (data_get (path ++ [i]) (mem l)) ->
          data_get (path ++ [i]) (mem' l) = Some (Value_data y)).
Proof.
  intros mem Hnd Hj Hrange Hpre Hsf Hexp Htag Hget Hinv. revert mem Hnd Hj Hrange Hpre.
  induction pre as [|i pre IH]; intros mem Hnd Hj Hrange Hpre; cbn [app Apply_fields].
  - rewrite (Value_Field_addressable _ _ _ _ _ _ _ Hsf), Hsf.
    rewrite Hexp, Htag. cbn [orb negb bool_decide decide_rel Value_CanSet andb Value_Type].
    rewrite Hget, Hinv. cbn [negb]. exists mem. split; [done|]. split; [done|].
    intros i sfi xi y Hin. by apply elem_of_nil in Hin.
  - apply list.NoDup_cons in Hnd as [Hi Hnd]. apply not_elem_of_cons in Hj as [Hji Hj].
    destruct (Hrange i) as [sfi Hsfi]; [left|].
    rewrite (Value_Field_addressable _ _ _ _ _ _ _ Hsfi), Hsfi.
    cbn [orb Value_CanSet Value_Type].
    assert (forall mem1,
      (forall k, k ∉ i :: pre ->
         data_get (path ++ [k]) (mem1 l) = data_get (path ++ [k]) (mem l)) ->
      (forall k, k ∈ pre -> is_Some (data_get (path ++ [k]) (mem l)) ->
         is_Some (data_get (path ++ [k]) (mem1 l))) ->
      (forall sfk xk y, rtype_fields t !! i = Some sfk ->
         sf_PkgPath sfk = "" -> inject_tag sfk = true ->
         Get (ords i) fuel h inj (Some (sf_Type sfk)) = Ret xk ->
         assignTo "reflect.Set" xk (sf_Type sfk) = Ret y ->
         is_Some (data_get (path ++ [i]) (mem l)) ->
         data_get (path ++ [i]) (mem1 l) = Some (Value_data y)) ->
      exists mem',
        Apply_fields ords fuel h inj (Val t d (Some (l, path)) false) t (pre ++ j :: post) mem1
        = (mem', Ret (Some (Errorf_not_found (Some (sf_Type sf)))))
        /\ (forall k, k ∉ i :: pre ->
              data_get (path ++ [k]) (mem' l) = data_get (path ++ [k]) (mem l))
        /\ (forall k sfk xk y, k ∈ i :: pre -> rtype_fields t !! k = Some sfk ->
              sf_PkgPath sfk = "" -> inject_tag sfk = true ->
              Get (ords k) fuel h inj (Some (sf_Type sfk)) = Ret xk ->
              assignTo "reflect.Set" xk (sf_Type sfk) = Ret y ->
              is_Some (data_get (path ++ [k]) (mem l)) ->
              data_get (path ++ [k]) (mem' l) = Some (Value_data y))) as Hstep.
    { intros mem1 Hother Hsome Hthis.
      destruct (IH mem1) as (mem' & Hrun & Hout & Hin); [done..| | |].
      - intros k Hk. apply Hrange. by right.
      - intros k sfk Hk. apply Hpre. by right.
      - exists mem'. split; [done|]. split.
        + intros k Hk. apply not_elem_of_cons in Hk as [Hki Hk].
          rewrite Hout by done. apply Hother. by apply not_elem_of_cons.
        + intros k sfk xk y [->|Hk]%elem_of_cons Hf He Ht Hg Ha Hs.
          * rewrite Hout by done. by eapply Hthis.
          * eapply Hin; [done..|]. by apply Hsome. }
    destruct (negb (bool_decide (sf_PkgPath sfi = "")) || negb (inject_tag sfi)) eqn:Hskip.
    + assert ((if negb (bool_decide (sf_PkgPath sfi = "")) then false else true)
              && inject_tag sfi = false) as Hcond.
      { destruct (bool_decide _), (inject_tag sfi); done. }
      destruct (negb (bool_decide (sf_PkgPath sfi = ""))) eqn:Hb; cbn [andb] in *.
      * apply Hstep; [done|done|]. intros sfk xk y Hk He. simplify_eq.
        rewrite bool_decide_eq_true_2 in Hb by done. done.
      * rewrite Hcond. apply Hstep; [done|done|].
        intros sfk xk y Hk He Ht. simplify_eq. congruence.
    + apply orb_false_elim in Hskip as [Hb Ht]. rewrite Hb. cbn [andb].
      apply negb_false_iff in Ht. rewrite Ht.
      apply negb_false_iff, bool_decide_eq_true_1 in Hb.
      destruct (Hpre i sfi) as (xi & Hgi & Hpi); [by left|done..|].
      rewrite Hgi.
      assert (IsValid xi = true) as -> by (by destruct Hpi as (? & ? & ? & -> & _)).
      cbn [negb].
      destruct (Value_Set_passable (default (DWord 0) (struct_fields d !! i))
                  l (path ++ [i]) xi (sf_Type sfi) mem Hpi) as (y & Hy & ->).
      apply Hstep.
      * intros k Hk. apply not_elem_of_cons in Hk as [Hki _].
        rewrite fn_lookup_insert. apply data_get_set_other. congruence.
      * intros k Hk Hs. rewrite fn_lookup_insert, data_get_set_other; [done|].
        by intros ->.
      * intros sfk xk y' Hk _ _ Hgk Hak Hs. simplify_eq.
        rewrite Hgi in Hgk. injection Hgk as <-.
        rewrite Hy in Hak. injection Hak as <-.
        rewrite fn_lookup_insert. by apply data_get_set_same.
Qed.

(** C5, as the code has it.  [Apply] on a struct reached through a pointer
    visits the fields in declared order and resolves only those that are
    settable (exported) and tagged.  At the first of them for which [Get]
    returns the zero Value, the ones before it having been given values
    that may be stored in them, [Apply] returns the error that names that
    field's type; the fields set before it keep the values they were given
    (nothing is rolled back), and the fields from it on are as they were. *)
Theorem Apply_error_at_first_unresolved ords fuel h inj val mem t d l j sf x :
  follow_pointers fuel mem (ValueOf val) = Ret (Val t d (Some (l, [])) false) ->
  rtype_Kind t = KStruct ->
  rtype_fields t !! j = Some sf -> sf_PkgPath sf = "" -> inject_tag sf = true ->
  Get (ords j) fuel h inj (Some (sf_Type sf)) = Ret x -> IsValid x = false ->
  (forall i sfi, i < j -> rtype_fields t !! i = Some sfi ->
     sf_PkgPath sfi = "" -> inject_tag sfi = true ->
     exists xi, Get (ords i) fuel h inj (Some (sf_Type sfi)) = Ret xi
                /\ passable xi (sf_Type sfi)) ->
  exists mem',
    Apply ords fuel h inj val mem
    = (mem', Ret (Some ("Value not found for type " +:+ rtype_String (sf_Type sf))))
    /\ (forall i sfi xi y, i < j -> rtype_fields t !! i = Some sfi ->
          sf_PkgPath sfi = "" -> inject_tag sfi = true ->
          Get (ords i) fuel h inj (Some (sf_Type sfi)) = Ret xi ->
          assignTo "reflect.Set" xi (sf_Type sfi) = Ret y ->
          is_Some (data_get [i] (mem l)) ->
          data_get [i] (mem' l) = Some (Value_data y))
    /\ (forall i, j <= i -> data_get [i] (mem' l) = data_get [i] (mem l)).
Proof.
  intros Hv Hk Hsf Hexp Htag Hget Hinv Hpre. unfold Apply. rewrite Hv.
  cbn [Value_Kind Value_Type Value_NumField].
  destruct (decide (rtype_Kind t ≠ KStruct)) as [|_]; [done|].
  assert (j < length (rtype_fields t)) as Hlt by (by eapply lookup_lt_Some).
  replace (seq 0 (length (rtype_fields t)))
    with (seq 0 j ++ j :: seq (S j) (length (rtype_fields t) - S j)).
  2:{ change (j :: seq (S j) (length (rtype_fields t) - S j))
        with (seq j (S (length (rtype_fields t) - S j))).
      rewrite <- (seq_app j _ 0). f_equal. lia. }
  destruct (Apply_fields_stops ords fuel h inj t d l [] j sf x
              (seq (S j) (length (rtype_fields t) - S j)) (seq 0 j) mem)
    as (mem' & Hrun & Hout & Hin); try done.
  - apply NoDup_seq.
  - rewrite elem_of_seq. lia.
  - intros i Hi%elem_of_seq. apply lookup_lt_is_Some. lia.
  - intros i sfi Hi%elem_of_seq. apply Hpre. lia.
  - exists mem'. split; [done|]. split.
    + intros i sfi xi y Hi. apply (Hin i sfi xi y). rewrite elem_of_seq. lia.
    + intros i Hi. apply (Hout i). rewrite elem_of_seq. lia.
Qed.

(** * More of the code *)

(** ** InterfaceOf *)

Lemma strip_pointers_chain n : forall t fuel,
  (forall k, k < n -> rtype_Kind (Nat.iter k rtype_Elem t) = KPtr) ->
  rtype_Kind (Nat.iter n rtype_Elem t) <> KPtr ->
  n < fuel ->
  strip_pointers fuel t = Ret (Nat.iter n rtype_Elem t).
Proof.
  induction n as [|n IH]; intros t fuel Hptr Hend Hfuel;
    (destruct fuel as [|fuel]; [lia|]); cbn [strip_pointers].
  - by destruct (decide _).
  - pose proof (Hptr 0 ltac:(lia)) as H0. cbn in H0.
    destruct (decide _) as [_|]; [|done].
    rewrite Nat.iter_succ_r. apply IH; [|by rewrite <- Nat.iter_succ_r|lia].
    intros k Hk. rewrite <- Nat.iter_succ_r. apply Hptr. lia.
Qed.

(** [InterfaceOf] accepts a pointer to an interface at any depth: for a
    value whose type is [n] pointers deep, the result is the type at the
    end of the chain when that is an interface, and otherwise the panic
    of the source, with which [MapTo] fails too. *)
Theorem InterfaceOf_pointer_chain n fuel t d :
  (forall k, k < n -> rtype_Kind (Nat.iter k rtype_Elem t) = KPtr) ->
  rtype_Kind (Nat.iter n rtype_Elem t) <> KPtr ->
  n < fuel ->
  (rtype_Kind (Nat.iter n rtype_Elem t) = KInterface ->
     InterfaceOf fuel (Some (t, d)) = Ret (Nat.iter n rtype_Elem t))
  /\ (rtype_Kind (Nat.iter n rtype_Elem t) <> KInterface ->
      InterfaceOf fuel (Some (t, d))
      = Panic "Called inject.InterfaceOf with a value that is not a pointer to an interface. (*MyInterface)(nil)"
      /\ forall h i val,
           MapTo fuel h i val (Some (t, d))
           = Panic "Called inject.InterfaceOf with a value that is not a pointer to an interface. (*MyInterface)(nil)").
Proof.
  intros Hptr Hend Hfuel. unfold MapTo, InterfaceOf.
  cbn [TypeOf fmap option_fmap option_map fst].
  rewrite (strip_pointers_chain n) by done. cbn [mbind outcome_bind].
  split; intros Hk; destruct (decide _); done.
Qed.

(** ** Set *)

(** [Set] followed by [Get]: a valid Value bound with [Set] to any type,
    the nil type included, is what [Get] of that type returns, and the
    other entries of the map are as they were. *)
Theorem Set_then_Get ord fuel h i inj (typ : reflect_Type) val :
  h !! i = Some inj ->
  IsValid val = true ->
  exists h1 inj1,
    Set_ h i typ val = Ret h1
    /\ h1 !! i = Some inj1
    /\ Get ord (S fuel) h1 i typ = Ret val
    /\ (forall typ' : reflect_Type, typ' <> typ -> values inj1 !! typ' = values inj !! typ')
    /\ parent inj1 = parent inj /\ handlers inj1 = handlers inj.
Proof.
  intros Hi Hv. unfold Set_, heap_at. rewrite Hi. cbn [mbind outcome_bind].
  eexists _, _. split; [done|]. split; [apply lookup_insert_eq|].
  split; [|split; [|done]].
  - eapply Get_hit; [apply lookup_insert_eq| |done]. cbn. apply lookup_insert_eq.
  - intros typ' Hne. cbn. by apply lookup_insert_ne.
Qed.

(** [Set] with the zero Value takes a binding away: for a type that is not
    an interface, [Get] then gives what the parent gives, or the zero Value
    when there is no parent, whatever was bound before. *)
Theorem Set_zero_unbinds ord fuel h i inj t :
  h !! i = Some inj ->
  rtype_Kind t <> KInterface ->
  exists h1,
    Set_ h i (Some t) ZeroValue = Ret h1
    /\ Get ord (S fuel) h1 i (Some t)
       = match parent inj with
         | Some p => Get ord fuel h1 p (Some t)
         | None => Ret ZeroValue
         end.
Proof.
  intros Hi Hk. unfold Set_, heap_at. rewrite Hi. cbn [mbind outcome_bind].
  eexists. split; [done|].
  rewrite (Get_miss _ _ _ _ (bind_value inj (Some t) ZeroValue)).
  - cbn [Type_Kind mbind outcome_bind]. destruct (decide _) as [|_]; [done|].
    cbn [mbind outcome_bind bind_value values parent].
    unfold values_at. rewrite lookup_insert_eq. cbn [default IsValid].
    by destruct (parent inj).
  - apply lookup_insert_eq.
  - cbn. unfold values_at. by rewrite lookup_insert_eq.
Qed.

(** ** Get *)

(** When one key of the map, and no other, implements an interface type
    that the map does not bind itself, [Get] returns the value of that key:
    in whatever order the map is visited, and whatever the parent binds. *)
Theorem Get_unique_implementor ord fuel h i inj t k v :
  enumerates ord ->
  h !! i = Some inj ->
  bindings (values inj) ->
  values inj !! Some t = None ->
  rtype_Kind t = KInterface ->
  values inj !! Some k = Some v ->
  implements t k = true ->
  (forall k' v', values inj !! Some k' = Some v' -> implements t k' = true -> k' = k) ->
  Get ord (S fuel) h i (Some t) = Ret v.
Proof.
  intros Hord Hi Hwf Hnone Hk Hv Himpl Huniq.
  rewrite (Get_miss _ _ _ _ inj) by (done || by rewrite values_at_None).
  cbn [Type_Kind mbind outcome_bind]. destruct (decide _) as [_|]; [|done].
  rewrite (values_at_None _ _ Hnone).
  destruct (range_implementors_cases t ZeroValue (ord i (values inj)) Hk)
    as [(k' & w & Hin & Hi' & ->)|[Hno _]].
  - intros key w Hin%(enumerates_elem ord i); [|done]. by destruct (Hwf _ _ Hin).
  - apply (enumerates_elem ord i) in Hin; [|done].
    rewrite (Huniq _ _ Hin Hi') in Hin. rewrite Hv in Hin. injection Hin as <-.
    destruct (Hwf _ _ Hv) as [_ Hvalid]. cbn [mbind outcome_bind]. by rewrite Hvalid.
  - rewrite (Hno k v) in Himpl; [done|]. by apply (enumerates_elem ord i).
Qed.

(** The nearest binding wins.  For a type that is not an interface: when
    the [n]-th ancestor binds it and none of the injectors below does,
    [Get] returns the ancestor's value. *)
Theorem Get_nearest_ancestor ord n : forall fuel h i a inja t v,
  rtype_Kind t <> KInterface ->
  nth_ancestor h n i = Some a ->
  h !! a = Some inja ->
  values inja !! Some t = Some v -> IsValid v = true ->
  (forall lvl, lvl < n -> exists b injb,
     nth_ancestor h lvl i = Some b /\ h !! b = Some injb
     /\ IsValid (values_at (values injb) (Some t)) = false) ->
  Get ord (S n + fuel) h i (Some t) = Ret v.
Proof.
  induction n as [|n IH]; intros fuel h i a inja t v Hk Hnth Ha Hv Hvalid Hbelow.
  - injection Hnth as ->. by eapply Get_hit.
  - destruct (Hbelow 0 ltac:(lia)) as (b & injb & Hb & Hhb & Hmiss).
    injection Hb as <-. cbn [nth_ancestor] in Hnth. rewrite Hhb in Hnth.
    cbn [mbind option_bind] in Hnth.
    destruct (parent injb) as [p|] eqn:Hp; [|done]. cbn [mbind option_bind] in Hnth.
    change (S (S n) + fuel) with (S (S n + fuel)).
    rewrite (Get_miss _ _ _ _ injb) by done.
    cbn [Type_Kind mbind outcome_bind]. destruct (decide _) as [|_]; [done|].
    cbn [mbind outcome_bind]. rewrite Hmiss, Hp.
    eapply IH; [done..|].
    intros lvl Hm. destruct (Hbelow (S lvl) ltac:(lia)) as (c & injc & Hc & Hhc & Hmc).
    exists c, injc. split; [|done].
    cbn [nth_ancestor] in Hc. rewrite Hhb in Hc. cbn [mbind option_bind] in Hc.
    by rewrite Hp in Hc.
Qed.

(** A chain of parents that never ends, as a cycle is, makes [Get] run
    for ever when no injector of the chain has a value for the type:
    none binds the type itself and, when the type is an interface, none has
    a key that implements it.  There is no check for cycles. *)
Theorem Get_never_returns_on_cycle ord fuel : forall h i t,
  enumerates ord ->
  (forall n, exists a inj,
     nth_ancestor h n i = Some a /\ h !! a = Some inj
     /\ IsValid (values_at (values inj) (Some t)) = false
     /\ (rtype_Kind t = KInterface ->
         forall (key : reflect_Type) v, values inj !! key = Some v ->
           exists kt, key = Some kt /\ implements t kt = false)
     /\ is_Some (parent inj)) ->
  Get ord fuel h i (Some t) = Timeout.
Proof.
  induction fuel as [|fuel IH]; intros h i t Hord Hall; [done|].
  destruct (Hall 0) as (a & inj & Ha & Hi & Hmiss & Hnone & [p Hp]). injection Ha as <-.
  rewrite (Get_miss _ _ _ _ inj) by done.
  cbn [Type_Kind mbind outcome_bind].
  assert ((if decide (rtype_Kind t = KInterface)
           then range_implementors (Some t) (values_at (values inj) (Some t))
                  (ord i (values inj))
           else Ret (values_at (values inj) (Some t)))
          = Ret (values_at (values inj) (Some t))) as ->.
  { destruct (decide _) as [Hk|]; [|done]. apply range_implementors_none; [done|].
    intros key v Hin%(enumerates_elem ord i); [|done]. by apply (Hnone Hk key v). }
  cbn [mbind outcome_bind]. rewrite Hmiss, Hp. apply IH; [done|].
  intros n. destruct (Hall (S n)) as (b & injb & Hb & Hrest).
  exists b, injb. split; [|done].
  cbn [nth_ancestor] in Hb. rewrite Hi in Hb. cbn [mbind option_bind] in Hb.
  by rewrite Hp in Hb.
Qed.

Lemma Get_agree ord fuel : forall h h' i (ty : reflect_Type),
  (forall n a, nth_ancestor h n i = Some a -> registry_of h a = registry_of h' a) ->
  Get ord fuel h i ty = Get ord fuel h' i ty.
Proof.
  induction fuel as [|fuel IH]; intros h h' i ty Hsame; [done|].
  rewrite !Get_unfold. pose proof (Hsame 0 i eq_refl) as H0.
  unfold registry_of, heap_at in *.
  destruct (h !! i) as [inj|] eqn:Hi, (h' !! i) as [inj'|] eqn:Hi'; try done.
  injection H0 as Hvals Hpar. cbn [mbind outcome_bind]. rewrite <- Hvals.
  destruct (IsValid _); [done|].
  destruct (Type_Kind ty) as [k| |]; [|done..]. cbn [mbind outcome_bind].
  destruct (if decide (k = KInterface) then _ else _) as [val| |]; [|done..].
  cbn [mbind outcome_bind]. rewrite <- Hpar.
  destruct (IsValid val), (parent inj) as [p|] eqn:Hp; try done.
  apply IH. intros n a Hn. apply (Hsame (S n)).
  cbn [nth_ancestor]. rewrite Hi. cbn [mbind option_bind]. by rewrite Hp.
Qed.

Lemma run_update_registry_of fuel h h' u a :
  run_update fuel h u = Ret h' ->
  (a <> target u \/ exists j key hs, u = do_On j key hs) ->
  registry_of h' a = registry_of h a.
Proof.
  intros Hrun Hcase. unfold registry_of.
  destruct u as [j val|j val ptr|j typ val|j p|j key hs]; cbn [run_update target] in *.
  - destruct Hcase as [Hne|(? & ? & ? & [=])].
    unfold Map, heap_at in Hrun. destruct (h !! j); simplify_eq/=.
    by rewrite lookup_insert_ne.
  - destruct Hcase as [Hne|(? & ? & ? & [=])].
    unfold MapTo in Hrun. destruct (InterfaceOf _ _); simplify_eq/=.
    unfold heap_at in Hrun. destruct (h !! j); simplify_eq/=.
    by rewrite lookup_insert_ne.
  - destruct Hcase as [Hne|(? & ? & ? & [=])].
    unfold Set_, heap_at in Hrun. destruct (h !! j); simplify_eq/=.
    by rewrite lookup_insert_ne.
  - destruct Hcase as [Hne|(? & ? & ? & [=])].
    unfold SetParent, heap_at in Hrun. destruct (h !! j); simplify_eq/=.
    by rewrite lookup_insert_ne.
  - unfold On in Hrun. destruct (validate_all _); simplify_eq/=.
    unfold heap_at in Hrun. destruct (h !! j) as [injj|] eqn:Hj; simplify_eq/=.
    destruct (decide (a = j)) as [->|Hne].
    + by rewrite lookup_insert_eq, Hj.
    + by rewrite lookup_insert_ne.
Qed.

(** What [Get] returns on an injector depends only on that injector and
    its ancestors: a [Map], [MapTo], [Set] or [SetParent] on an injector
    that is not among them changes nothing (a binding made in a child is
    not seen from the parent), and no call of [On] does. *)
Theorem Get_unchanged_by_other_injectors ord fuel n h h' u i (ty : reflect_Type) :
  run_update n h u = Ret h' ->
  (forall lvl, nth_ancestor h lvl i <> Some (target u)) \/ (exists j key hs, u = do_On j key hs) ->
  Get ord fuel h' i ty = Get ord fuel h i ty.
Proof.
  intros Hrun Hcase. symmetry. apply Get_agree. intros lvl a Hm. symmetry.
  eapply run_update_registry_of; [done|].
  destruct Hcase as [Hnot|Hon]; [left|by right].
  intros ->. by apply (Hnot lvl).
Qed.

(** A new injector is at an address that was not in use, the others are
    untouched, and it binds nothing and has no handler: [Get] of every
    type returns the zero Value and [Fire] of every kind does nothing. *)
Theorem New_is_empty ord h i h1 :
  New h = (i, h1) ->
  h !! i = None
  /\ (forall j, j <> i -> h1 !! j = h !! j)
  /\ (enumerates ord -> forall fuel t, Get ord (S fuel) h1 i (Some t) = Ret ZeroValue)
  /\ (forall key data, Fire h1 i key data = Ret []).
Proof.
  unfold New. intros [= <- <-]. set (i := fresh (dom h)).
  assert (h !! i = None) as Hfresh by (apply not_elem_of_dom, is_fresh).
  split; [done|]. split; [by intros j Hj; rewrite lookup_insert_ne|]. split.
  - intros Hord fuel t.
    rewrite (Get_miss _ _ _ _ (mkInjector ∅ ∅ None)); [|apply lookup_insert_eq|done].
    cbn [Type_Kind mbind outcome_bind values parent].
    destruct (decide _) as [Hk|_]; [|done].
    rewrite range_implementors_none; [done|done|].
    intros key w Hin%(enumerates_elem ord i); [|done]. by rewrite lookup_empty in Hin.
  - intros key data. unfold Fire, heap_at. by rewrite lookup_insert_eq.
Qed.

(** ** validateHandler and On *)

Lemma validateHandler_cases t d :
  validateHandler (Some (t, d))
  = if decide (rtype_Kind t = KFunc)
    then match rtype_ins t with
         | [] => Panic "runtime error: index out of range"
         | _ :: _ => Ret ()
         end
    else Panic "inject handler must be a callable func".
Proof.
  unfold validateHandler. cbn [TypeOf fmap option_fmap option_map fst Type_Kind Type_NumIn Type_In].
  cbn [mbind outcome_bind].
  destruct (decide (rtype_Kind t ≠ KFunc)) as [Hk|Hk];
    destruct (decide (rtype_Kind t = KFunc)) as [Hk'|Hk']; try done.
  cbn [mbind outcome_bind]. destruct (rtype_ins t) as [|t0 ts]; cbn [length].
  - by destruct (decide (0 = 0)).
  - by destruct (decide (S (length ts) = 0)).
Qed.

(** What [validateHandler] accepts: exactly the funcs with at least one
    parameter, of whatever type.  Anything that is not a func is refused
    with the first message; a func without parameters panics inside [In(0)];
    the second message, about the Event type, is never produced. *)
Theorem validateHandler_accepts_iff (handler : Handler) :
  (validateHandler handler = Ret ()
   <-> exists t d, handler = Some (t, d) /\ rtype_Kind t = KFunc /\ rtype_ins t <> [])
  /\ (forall t d, handler = Some (t, d) -> rtype_Kind t <> KFunc ->
        validateHandler handler = Panic "inject handler must be a callable func")
  /\ (forall t d, handler = Some (t, d) -> rtype_Kind t = KFunc -> rtype_ins t = [] ->
        validateHandler handler = Panic "runtime error: index out of range")
  /\ validateHandler handler <> Panic "the first arg of inject handler must be a Event type".
Proof.
  destruct handler as [[t d]|].
  2:{ split; [|done]. split; [done|]. by intros (? & ? & [=] & _). }
  rewrite validateHandler_cases. split; [|split; [|split]].
  - split.
    + intros Hret. exists t, d. split; [done|].
      destruct (decide _); [|done]. split; [done|]. by destruct (rtype_ins t).
    + intros (? & ? & [= <- <-] & Hk & Hins). destruct (decide _); [|done].
      by destruct (rtype_ins t).
  - intros ? ? [= <- <-] Hk. by destruct (decide _).
  - intros ? ? [= <- <-] Hk Hins. destruct (decide _); [|done]. by rewrite Hins.
  - destruct (decide _); [|done]. by destruct (rtype_ins t).
Qed.

(** Two calls of [On] for one kind: the handlers of the kind are then the
    ones that were there, followed by those of the first call and by those
    of the second, each in the order they were given; the bindings and the
    parent are not touched. *)
Theorem On_twice h i key hs1 hs2 h1 h2 :
  On h i key (Some hs1) = Ret h1 ->
  On h1 i key (Some hs2) = Ret h2 ->
  exists inj inj2,
    h !! i = Some inj /\ h2 !! i = Some inj2
    /\ handlers_at (handlers inj2) key
       = Some (range_slice (handlers_at (handlers inj) key) ++ hs1 ++ hs2)
    /\ values inj2 = values inj /\ parent inj2 = parent inj.
Proof.
  unfold On, range_slice. cbn [from_option id].
  destruct (validate_all hs1); [|done..]. cbn [mbind outcome_bind].
  unfold heap_at. destruct (h !! i) as [inj|] eqn:Hi; [|done]. cbn [mbind outcome_bind].
  intros [= <-]. destruct (validate_all hs2); [|done..]. cbn [mbind outcome_bind].
  rewrite lookup_insert_eq. cbn [mbind outcome_bind handlers values parent].
  unfold handlers_at at 1. rewrite lookup_insert_eq. cbn [default].
  intros [= <-]. rewrite !insert_insert_eq.
  exists inj. eexists. split; [done|]. split; [apply lookup_insert_eq|].
  cbn [handlers values parent]. split; [|done].
  unfold handlers_at at 1. rewrite lookup_insert_eq. cbn [default].
  destruct (handlers_at (handlers inj) key) as [old|];
    cbn [append range_slice from_option id]; [|done].
  by rewrite (assoc_L (++)).
Qed.

Lemma run_update_handlers fuel h h' u i inj key hs :
  run_update fuel h u = Ret h' ->
  h !! i = Some inj ->
  handlers_at (handlers inj) key = Some hs ->
  exists inj' hs', h' !! i = Some inj'
                   /\ handlers_at (handlers inj') key = Some hs'
                   /\ length hs <= length hs'.
Proof.
  intros Hrun Hi Hhs.
  destruct u as [j val|j val ptr|j typ val|j p|j key' hs']; cbn [run_update] in Hrun.
  - unfold Map, heap_at in Hrun. destruct (h !! j) as [injj|] eqn:Hj; simplify_eq/=.
    destruct (decide (i = j)) as [->|]; simplify_map_eq; by eexists _, hs.
  - unfold MapTo in Hrun. destruct (InterfaceOf fuel ptr); simplify_eq/=.
    unfold heap_at in Hrun. destruct (h !! j) as [injj|] eqn:Hj; simplify_eq/=.
    destruct (decide (i = j)) as [->|]; simplify_map_eq; by eexists _, hs.
  - unfold Set_, heap_at in Hrun. destruct (h !! j) as [injj|] eqn:Hj; simplify_eq/=.
    destruct (decide (i = j)) as [->|]; simplify_map_eq; by eexists _, hs.
  - unfold SetParent, heap_at in Hrun. destruct (h !! j) as [injj|] eqn:Hj; simplify_eq/=.
    destruct (decide (i = j)) as [->|]; simplify_map_eq; by eexists _, hs.
  - unfold On in Hrun. destruct (validate_all _); simplify_eq/=.
    unfold heap_at in Hrun. destruct (h !! j) as [injj|] eqn:Hj; simplify_eq/=.
    destruct (decide (i = j)) as [->|Hne].
    + rewrite Hi in Hj. injection Hj as <-. rewrite lookup_insert_eq.
      destruct (decide (key = key')) as [<-|Hk].
      * rewrite Hhs. eexists _, (hs ++ range_slice hs'). split; [done|]. cbn.
        unfold handlers_at. rewrite lookup_insert_eq. cbn.
        split; [by destruct hs'|]. rewrite length_app. lia.
      * eexists _, hs. split; [done|]. cbn. unfold handlers_at in *.
        by rewrite lookup_insert_ne by done.
    + rewrite lookup_insert_ne by done. by eexists _, hs.
Qed.

(** Nothing is ever unregistered: after any sequence of calls, a kind that
    had a handler list still has one, with at least as many handlers; so a
    [Fire] that sent once for a kind sends after every later call. *)
Theorem registered_kind_stays_registered fuel us : forall h h' i inj key hs,
  run_updates fuel h us = Ret h' ->
  h !! i = Some inj ->
  handlers_at (handlers inj) key = Some hs ->
  exists inj' hs',
    h' !! i = Some inj'
    /\ handlers_at (handlers inj') key = Some hs'
    /\ length hs <= length hs'
    /\ forall data, Fire h' i key data = Ret [Send_events i (mkEvent i key data)].
Proof.
  induction us as [|u us IH]; intros h h' i inj key hs Hrun Hi Hhs; cbn [run_updates] in Hrun.
  - injection Hrun as <-. exists inj, hs. split; [done|]. split; [done|]. split; [done|].
    intros data. unfold Fire, heap_at. rewrite Hi. cbn. by rewrite Hhs.
  - destruct (run_update fuel h u) as [h1| |] eqn:Hu; [|done..]. cbn [mbind outcome_bind] in Hrun.
    destruct (run_update_handlers _ _ _ _ _ _ _ _ Hu Hi Hhs) as (inj1 & hs1 & Hi1 & Hhs1 & Hle1).
    destruct (IH _ _ _ _ _ _ Hrun Hi1 Hhs1) as (inj' & hs' & Hi' & Hhs' & Hle & Hfire).
    exists inj', hs'. split; [done|]. split; [done|]. split; [lia|done].
Qed.

(** ** Invoke *)

(** [Invoke] of something that is not a func panics before any lookup and
    any call, whatever the injector: on nil, on a value of another kind,
    and, after the lookups, on a nil func without parameters. *)
Theorem Invoke_panics_unless_func ords fuel h inj (f : iface) w :
  (f = None -> Invoke ords fuel h inj f w = (w, Panic nil_dereference))
  /\ (forall t d, f = Some (t, d) -> rtype_Kind t <> KFunc ->
        Invoke ords fuel h inj f w = (w, Panic "reflect: NumIn of non-func type"))
  /\ (forall t d, f = Some (t, d) -> rtype_Kind t = KFunc -> rtype_ins t = [] ->
        (forall fid, d <> DFunc (Some fid)) ->
        Invoke ords fuel h inj f w = (w, Panic "reflect.Value.Call: call of nil function")).
Proof.
  split; [by intros ->|]. split.
  - intros t d -> Hk. unfold Invoke. cbn [TypeOf fmap option_fmap option_map fst Type_NumIn].
    by destruct (decide _).
  - intros t d -> Hk Hins Hnil. unfold Invoke.
    cbn [TypeOf fmap option_fmap option_map fst Type_NumIn].
    destruct (decide _) as [_|]; [|done]. rewrite Hins. cbn [length seq Invoke_args ValueOf Value_Call].
    destruct (decide (rtype_Kind t ≠ KFunc)) as [|_]; [done|].
    destruct d as [| | |[fid|]| | |]; try done. by destruct (Hnil fid).
Qed.

(** ** Apply *)

Lemma Apply_fields_skips ords fuel h inj t d at_ ro idxs mem :
  (forall i, i ∈ idxs -> exists sf,
     rtype_fields t !! i = Some sf
     /\ (at_ = None \/ ro = true \/ sf_PkgPath sf <> "" \/ inject_tag sf = false)) ->
  Apply_fields ords fuel h inj (Val t d at_ ro) t idxs mem = (mem, Ret None).
Proof.
  induction idxs as [|i idxs IH]; intros Hall; [done|]. cbn [Apply_fields Value_Field].
  destruct (Hall i) as (sf & Hsf & Hcase); [left|]. rewrite Hsf.
  assert (Value_CanSet
            (Val (sf_Type sf) (default (DWord 0) (struct_fields d !! i))
               ((fun '(l, path) => (l, path ++ [i])) <$> at_)
               (ro || negb (bool_decide (sf_PkgPath sf = ""))))
          && inject_tag sf = false) as ->.
  { destruct Hcase as [->| [->| [Hpkg| ->]]].
    - done.
    - by destruct at_ as [[??]|].
    - rewrite bool_decide_eq_false_2 by done. destruct at_ as [[??]|], ro; done.
    - apply andb_false_r. }
  apply IH. intros i' Hi'. apply Hall. by right.
Qed.

(** [Apply] asks the injector for nothing unless a field is both settable
    and tagged: on a struct passed by value, or one whose tagged fields are
    all unexported, or one without tags, it returns the nil error and
    writes nothing, whatever the injector binds and even when it binds
    nothing. *)
Theorem Apply_without_settable_tagged_field ords fuel h inj val mem t d at_ ro :
  follow_pointers fuel mem (ValueOf val) = Ret (Val t d at_ ro) ->
  rtype_Kind t = KStruct ->
  (forall sf, sf ∈ rtype_fields t ->
     at_ = None \/ ro = true \/ sf_PkgPath sf <> "" \/ inject_tag sf = false) ->
  Apply ords fuel h inj val mem = (mem, Ret None).
Proof.
  intros Hv Hk Hall. unfold Apply. rewrite Hv. cbn [Value_Kind Value_Type Value_NumField].
  destruct (decide _) as [|_]; [done|]. apply Apply_fields_skips.
  intros i Hi%elem_of_seq. destruct (lookup_lt_is_Some_2 (rtype_fields t) i) as [sf Hsf]; [lia|].
  exists sf. split; [done|]. apply Hall. by eapply list_elem_of_lookup_2.
Qed.

Lemma Apply_fields_all ords fuel h inj t d l path idxs : forall mem,
  NoDup idxs ->
  (forall i, i ∈ idxs -> is_Some (rtype_fields t !! i)) ->
  (forall i sfi, i ∈ idxs -> rtype_fields t !! i = Some sfi ->
     sf_PkgPath sfi = "" -> inject_tag sfi = true ->
     exists xi, Get (ords i) fuel h inj (Some (sf_Type sfi)) = Ret xi
                /\ passable xi (sf_Type sfi)) ->
  exists mem',
    Apply_fields ords fuel h inj (Val t d (Some (l, path)) false) t idxs mem
    = (mem', Ret None)
    /\ (forall l', l' <> l -> mem' l' = mem l')
    /\ (forall i, i ∉ idxs ->
          data_get (path ++ [i]) (mem' l) = data_get (path ++ [i]) (mem l))
    /\ (forall i sfi, rtype_fields t !! i = Some sfi ->
          sf_PkgPath sfi <> "" \/ inject_tag sfi = false ->
          data_get (path ++ [i]) (mem' l) = data_get (path ++ [i]) (mem l))
    /\ (forall i sfi xi y, i ∈ idxs -> rtype_fields t !! i = Some sfi ->
          sf_PkgPath sfi = "" -> inject_tag sfi = true ->
          Get (ords i) fuel h inj (Some (sf_Type sfi)) = Ret xi ->
          assignTo "reflect.Set" xi (sf_Type sfi) = Ret y ->
          is_Some (data_get (path ++ [i]) (mem l)) ->
          data_get (path ++ [i]) (mem' l) = Some (Value_data y)).
Proof.
  induction idxs as [|i idxs IH]; intros mem Hnd Hrange Hres.
  { exists mem. split; [done|]. split; [done|]. split; [done|]. split; [done|].
    intros i sfi xi y Hin. by apply elem_of_nil in Hin. }
  apply list.NoDup_cons in Hnd as [Hi Hnd].
  destruct (Hrange i) as [sfi Hsfi]; [left|].
  assert (forall i', i' ∈ idxs -> is_Some (rtype_fields t !! i')) as Hrange'
    by (intros i' Hi'; apply Hrange; by right).
  assert (forall i' sf', i' ∈ idxs -> rtype_fields t !! i' = Some sf' ->
            sf_PkgPath sf' = "" -> inject_tag sf' = true ->
            exists xi, Get (ords i') fuel h inj (Some (sf_Type sf')) = Ret xi
                       /\ passable xi (sf_Type sf')) as Hres'
    by (intros i' sf' Hi'; apply Hres; by right).
  cbn [Apply_fields]. rewrite (Value_Field_addressable _ _ _ _ _ _ _ Hsfi), Hsfi.
  cbn [orb Value_CanSet Value_Type].
  destruct (decide (sf_PkgPath sfi = "" /\ inject_tag sfi = true)) as [[Hexp Htag]|Hskip].
  - rewrite bool_decide_eq_true_2 by done. cbn [negb andb]. rewrite Htag.
    destruct (Hres i sfi) as (xi & Hgi & Hpi); [by left|done..|].
    rewrite Hgi.
    assert (IsValid xi = true) as -> by (by destruct Hpi as (? & ? & ? & -> & _)).
    cbn [negb].
    destruct (Value_Set_passable (default (DWord 0) (struct_fields d !! i))
                l (path ++ [i]) xi (sf_Type sfi) mem Hpi) as (y & Hy & ->).
    destruct (IH (<[l:=data_set (path ++ [i]) (Value_data y) (mem l)]> mem) Hnd Hrange' Hres')
      as (mem' & Hrun & Hloc & Hout & Hskipped & Hset).
    exists mem'. split; [done|]. split; [|split; [|split]].
    + intros l' Hl'. rewrite Hloc by done. by rewrite fn_lookup_insert_ne.
    + intros i' Hi'. apply not_elem_of_cons in Hi' as [Hne Hi'].
      rewrite Hout by done. rewrite fn_lookup_insert. apply data_get_set_other. congruence.
    + intros i' sf' Hsf' Hcase. rewrite (Hskipped _ _ Hsf' Hcase), fn_lookup_insert.
      apply data_get_set_other. intros ->. rewrite Hsfi in Hsf'. injection Hsf' as <-.
      destruct Hcase; congruence.
    + intros i' sf' xi' y' [->|Hin]%elem_of_cons Hsf' He Ht Hg Ha Hs.
      * rewrite Hsfi in Hsf'. injection Hsf' as <-.
        rewrite Hgi in Hg. injection Hg as <-. rewrite Hy in Ha. injection Ha as <-.
        rewrite Hout by done. rewrite fn_lookup_insert. by apply data_get_set_same.
      * eapply Hset; [done..|]. rewrite fn_lookup_insert, data_get_set_other; [done|].
        by intros ->.
  - assert ((if negb (bool_decide (sf_PkgPath sfi = "")) then false else true)
            && inject_tag sfi = false) as ->.
    { destruct (decide (sf_PkgPath sfi = "")) as [Hexp|Hexp].
      - rewrite bool_decide_eq_true_2 by done. cbn.
        destruct (inject_tag sfi); [|done]. by destruct Hskip.
      - by rewrite bool_decide_eq_false_2 by done. }
    destruct (IH mem Hnd Hrange' Hres') as (mem' & Hrun & Hloc & Hout & Hskipped & Hset).
    exists mem'. split; [done|]. split; [done|]. split; [|split; [done|]].
    + intros i' Hi'. apply not_elem_of_cons in Hi' as [Hne Hi']. by apply Hout.
    + intros i' sf' xi' y' [->|Hin]%elem_of_cons Hsf' He Ht Hg Ha Hs.
      * rewrite Hsfi in Hsf'. injection Hsf' as <-. by destruct Hskip.
      * by eapply Hset.
Qed.

(** [Apply] on a struct reached through a pointer, when every settable
    tagged field has a type that resolves to a value that may be stored in
    it: the error is nil, each of those fields holds the value found for
    its type, converted to that type, and the untagged and unexported
    fields and all other variables are as before. *)
Theorem Apply_sets_every_tagged_field ords fuel h inj val mem t d l :
  follow_pointers fuel mem (ValueOf val) = Ret (Val t d (Some (l, [])) false) ->
  rtype_Kind t = KStruct ->
  (forall i sfi, rtype_fields t !! i = Some sfi ->
     sf_PkgPath sfi = "" -> inject_tag sfi = true ->
     exists xi, Get (ords i) fuel h inj (Some (sf_Type sfi)) = Ret xi
                /\ passable xi (sf_Type sfi)) ->
  exists mem',
    Apply ords fuel h inj val mem = (mem', Ret None)
    /\ (forall l', l' <> l -> mem' l' = mem l')
    /\ (forall i sfi, rtype_fields t !! i = Some sfi ->
          sf_PkgPath sfi <> "" \/ inject_tag sfi = false ->
          data_get [i] (mem' l) = data_get [i] (mem l))
    /\ (forall i sfi xi y, rtype_fields t !! i = Some sfi ->
          sf_PkgPath sfi = "" -> inject_tag sfi = true ->
          Get (ords i) fuel h inj (Some (sf_Type sfi)) = Ret xi ->
          assignTo "reflect.Set" xi (sf_Type sfi) = Ret y ->
          is_Some (data_get [i] (mem l)) ->
          data_get [i] (mem' l) = Some (Value_data y)).
Proof.
  intros Hv Hk Hres. unfold Apply. rewrite Hv. cbn [Value_Kind Value_Type Value_NumField].
  destruct (decide _) as [|_]; [done|].
  destruct (Apply_fields_all ords fuel h inj t d l [] (seq 0 (length (rtype_fields t))) mem)
    as (mem' & Hrun & Hloc & _ & Hskipped & Hset).
  - apply NoDup_seq.
  - intros i Hi%elem_of_seq. apply lookup_lt_is_Some. lia.
  - intros i sfi _. apply Hres.
  - exists mem'. split; [done|]. split; [done|]. split; [done|].
    intros i sfi xi y Hsf. apply Hset; [|done]. apply elem_of_seq.
    apply lookup_lt_Some in Hsf. lia.
Qed.

(** [Apply] on nil, and on a nil pointer of whatever type, is a no-op
    that returns the nil error: [Elem] of a nil pointer is the zero Value,
    whose kind is neither pointer nor struct. *)
Theorem Apply_nil_is_noop ords fuel h inj mem :
  Apply ords (S fuel) h inj None mem = (mem, Ret None)
  /\ forall pt, rtype_Kind pt = KPtr ->
       Apply ords (S (S fuel)) h inj (Some (pt, DPtr None)) mem = (mem, Ret None).
Proof.
  split; [done|]. intros pt Hk. unfold Apply.
  cbn [follow_pointers ValueOf Value_Kind Value_Elem ptr_target].
  destruct (decide (rtype_Kind pt = KPtr)) as [_|]; [|done].
  by destruct (decide (KInvalid = KPtr)).
Qed.

(** ** Start, Stop and the dispatch of events *)

Lemma send_stopped_None pool i b :
  dispatch_loop i ∉ pool -> send pool (Send_stopped i b) = None.
Proof.
  induction pool as [|[j|j e] pool IH]; [done| |]; intros Hnot;
    apply not_elem_of_cons in Hnot as [Hne Hnot]; cbn [send receives].
  - rewrite bool_decide_eq_false_2 by congruence. by rewrite IH.
  - by rewrite IH.
Qed.

Lemma do_calls_Starts i n : forall pool cs,
  do_calls pool (replicate n (call_Start i) ++ cs)
  = do_calls (replicate n (dispatch_loop i) ++ pool) cs.
Proof.
  induction n as [|n IH]; intros pool cs; [done|].
  cbn [replicate app do_calls do_call Start]. rewrite IH. f_equal.
  change (dispatch_loop i :: pool) with ([dispatch_loop i] ++ pool).
  rewrite (assoc_L (++)).
  change [dispatch_loop i] with (replicate 1 (dispatch_loop i)).
  rewrite <- replicate_add. by replace (n + 1) with (S n) by lia.
Qed.

Lemma do_calls_Stops i k : forall n pool,
  k <= n ->
  do_calls (replicate n (dispatch_loop i) ++ pool) (replicate k (call_Stop i))
  = (replicate (n - k) (dispatch_loop i) ++ pool, []).
Proof.
  induction k as [|k IH]; intros n pool Hle; cbn [replicate do_calls].
  - by rewrite Nat.sub_0_r.
  - destruct n as [|n]; [lia|]. cbn [replicate app do_call]. unfold Stop.
    cbn [send receives after_receive app]. rewrite bool_decide_eq_true_2 by done.
    apply IH. lia.
Qed.

(** Every [Start] spawns a loop of its own and every [Stop] ends one: after
    [n] calls of [Start], [k] calls of [Stop] return when [k <= n], and
    leave [n - k] loops running; on an injector without a running loop the
    first [Stop] beyond the [n]-th blocks. *)
Theorem Starts_then_Stops pool i n k :
  (k <= n ->
   do_calls pool (replicate n (call_Start i) ++ replicate k (call_Stop i))
   = (replicate (n - k) (dispatch_loop i) ++ pool, []))
  /\ (dispatch_loop i ∉ pool -> n < k ->
      do_calls pool (replicate n (call_Start i) ++ replicate k (call_Stop i))
      = (pool, replicate (k - n) (call_Stop i))).
Proof.
  split.
  - intros Hle. rewrite do_calls_Starts. by apply do_calls_Stops.
  - intros Hnot Hlt. rewrite do_calls_Starts.
    replace k with (n + (k - n)) at 1 by lia. rewrite replicate_add.
    assert (forall cs, do_calls (replicate n (dispatch_loop i) ++ pool)
                         (replicate n (call_Stop i) ++ cs) = do_calls pool cs) as ->.
    { clear. induction n as [|n IH]; intros cs; [done|].
      cbn [replicate app do_calls do_call]. unfold Stop.
      cbn [send receives after_receive app]. by rewrite bool_decide_eq_true_2. }
    destruct (k - n) as [|m] eqn:Hm; [lia|]. cbn [replicate do_calls do_call]. unfold Stop.
    by rewrite send_stopped_None.
Qed.

Lemma send_events_Some pool i e pool' :
  send pool (Send_events i e) = Some pool' ->
  exists before after,
    pool = before ++ dispatch_loop i :: after
    /\ pool' = before ++ in_run i e :: after
    /\ dispatch_loop i ∉ before.
Proof.
  revert pool'. induction pool as [|[j|j e'] pool IH]; intros pool';
    cbn [send receives after_receive app]; [done| |].
  - case_bool_decide as Hj.
    + intros [= <-]. subst j. exists [], pool. split; [done|]. split; [done|].
      apply not_elem_of_nil.
    + destruct (send pool _) as [rest|]; cbn; [|done]. intros [= <-].
      destruct (IH rest eq_refl) as (before & after & -> & -> & Hnot).
      exists (dispatch_loop j :: before), after. split; [done|]. split; [done|].
      apply not_elem_of_cons. split; [congruence|done].
  - destruct (send pool _) as [rest|]; cbn; [|done]. intros [= <-].
    destruct (IH rest eq_refl) as (before & after & -> & -> & Hnot).
    exists (in_run j e' :: before), after. split; [done|]. split; [done|].
    apply not_elem_of_cons. split; [congruence|done].
Qed.

Lemma send_events_None pool i e :
  dispatch_loop i ∉ pool -> send pool (Send_events i e) = None.
Proof.
  induction pool as [|[j|j e'] pool IH]; [done| |]; intros Hnot;
    apply not_elem_of_cons in Hnot as [Hne Hnot]; cbn [send receives].
  - rewrite bool_decide_eq_false_2 by congruence. by rewrite IH.
  - by rewrite IH.
Qed.

(** A send on the events channel of an injector completes exactly when a
    dispatch loop of that injector waits in its [select], whatever loops
    other injectors have.  The loop that receives is then inside [run]
    with the event, and receives nothing until [run] returns: with one
    loop, the sender of a second event blocks. *)
Theorem events_send_needs_loop pool i e :
  (is_Some (send pool (Send_events i e)) <-> dispatch_loop i ∈ pool)
  /\ (forall pool', send pool (Send_events i e) = Some pool' ->
        exists before after,
          pool = before ++ dispatch_loop i :: after
          /\ pool' = before ++ in_run i e :: after)
  /\ (dispatch_loop i ∉ pool -> forall e',
        do_calls pool [call_Start i; call_send (Send_events i e); call_send (Send_events i e')]
        = (in_run i e :: pool, [call_send (Send_events i e')])).
Proof.
  split; [|split].
  - split.
    + intros [pool' (before & after & -> & _)%send_events_Some].
      apply elem_of_app. right. by left.
    + intros Hin. destruct (send pool _) eqn:Hs; [done|].
      assert (forall p, dispatch_loop i ∈ p -> send p (Send_events i e) <> None) as Hsome.
      { clear. induction p as [|[j|j e'] p IH]; cbn [send receives].
        - by intros ?%elem_of_nil.
        - case_bool_decide; [done|]. intros [[= ->]|Hin]%elem_of_cons; [done|].
          destruct (send p _); [done|]. by destruct (IH Hin).
        - intros [[=]|Hin]%elem_of_cons.
          destruct (send p _); [done|]. by destruct (IH Hin). }
      by destruct (Hsome pool Hin).
  - intros pool' (before & after & -> & -> & _)%send_events_Some. by exists before, after.
  - intros Hnot e'. cbn [do_calls do_call Start send receives after_receive app].
    rewrite bool_decide_eq_true_2 by done. cbn [do_calls do_call send receives].
    cbn [fmap option_fmap option_map]. by rewrite send_events_None.
Qed.

End Properties.

Section DispatchProperties.
Context {R : Reflect} {L : EventLayout} {HS : Handlers}.
Implicit Types (h : gmap addr injector).


Lemma Invoke_event_handler ords fuel h i inj e ft fid (w : world) :
  h !! i = Some inj ->
  values inj !! Some EventType = Some (ValueOf_Event e) ->
  rtype_Kind ft = KFunc -> rtype_ins ft = [EventType] -> rtype_IsVariadic ft = false ->
  Invoke ords (S fuel) h i (Some (ft, DFunc (Some fid))) w
  = (mkWorld (handler_call fid [ValueOf_Event e] (w_state w)).1
       (w_calls w ++ [(fid, [ValueOf_Event e])]),
     rets ← (handler_call fid [ValueOf_Event e] (w_state w)).2; Ret (Some rets, None)).
Proof.
  intros Hi Hev Hk Hins Hvar. unfold Invoke.
  cbn [TypeOf fmap option_fmap option_map fst Type_NumIn].
  destruct (decide _) as [_|]; [|done]. rewrite Hins. cbn [length seq Invoke_args].
  unfold Type_In. destruct (decide _) as [_|]; [|done]. rewrite Hins.
  cbn [lookup list_lookup mbind outcome_bind].
  rewrite (Get_hit _ _ _ _ inj (Some EventType) (ValueOf_Event e)) by done.
  cbn [mbind outcome_bind ValueOf_Event IsValid negb ValueOf Value_Call].
  destruct (decide (rtype_Kind ft ≠ KFunc)) as [|_]; [done|].
  unfold Call_args. rewrite Hins, Hvar. cbn [length negb andb].
  destruct (decide (1 < 1)) as [|_]; [lia|]. rewrite bool_decide_eq_false_2 by lia.
  unfold ValueOf_Event.
  cbn [forallb IsValid andb negb take check_assignable Value_Type mbind outcome_bind].
  unfold AssignableTo. rewrite directlyAssignable_refl.
  cbn [orb mbind outcome_bind length]. destruct (decide (1 ≠ 1)) as [|_]; [done|].
  cbn [assign_all must_be_exported assignTo mbind outcome_bind].
  rewrite directlyAssignable_refl. cbn [mbind outcome_bind fn_call Handlers_Funcs].
  by destruct (handler_call fid _ (w_state w)).
Qed.

Lemma send_events_at before after p e :
  dispatch_loop p ∉ before ->
  send (before ++ dispatch_loop p :: after) (Send_events p e)
  = Some (before ++ in_run p e :: after).
Proof.
  induction before as [|[j|j e'] before IH]; intros Hnot; cbn [app send receives].
  - by rewrite bool_decide_eq_true_2.
  - apply not_elem_of_cons in Hnot as [Hne Hnot].
    rewrite bool_decide_eq_false_2 by congruence. by rewrite IH.
  - apply not_elem_of_cons in Hnot as [_ Hnot]. by rewrite IH.
Qed.

(** The handlers of an event are called in the order in which they were
    registered.  When the handlers of the kind are funcs of one parameter
    of type Event whose bodies return and leave the injector dispatching
    (the event bound to the Event type, the handlers of the kind as they
    are), [run] binds the event, calls every handler once, in order, with
    the event, and performs no channel operation of its own. *)
Theorem run_calls_handlers_in_order ordss ord fuel fuel' i inj e (fs : list (nat * nat))
    (w : world) :
  let hs := Some ((fun f => Some (f.1, DFunc (Some f.2))) <$> fs) in
  heap_of w !! i = Some inj ->
  handlers_at (handlers inj) (Type_ e) = hs ->
  Forall (fun f => rtype_Kind f.1 = KFunc /\ rtype_ins f.1 = [EventType]
                   /\ rtype_IsVariadic f.1 = false) fs ->
  (forall f s h, f ∈ fs -> dispatching i e hs h ->
     exists s' h' rets,
       handler_call f.2 [ValueOf_Event e] (s, h) = ((s', h'), Ret rets)
       /\ dispatching i e hs h') ->
  exists w1,
    run ordss (S fuel) i e w = (w1, Ret [])
    /\ w_calls w1 = w_calls w ++ ((fun f => (f.2, [ValueOf_Event e])) <$> fs)
    /\ dispatching i e hs (heap_of w1)
    /\ Get ord (S fuel') (heap_of w1) i (Some EventType) = Ret (ValueOf_Event e).
Proof.
  intros hs Hi Hhs Hfs Hkeep.
  assert (exists w1, run ordss (S fuel) i e w = (w1, Ret [])
            /\ w_calls w1 = w_calls w ++ ((fun f => (f.2, [ValueOf_Event e])) <$> fs)
            /\ dispatching i e hs (heap_of w1)) as (w1 & Hrun & Hcalls & Hdisp).
  { unfold run, Set_, heap_at. rewrite Hi, Hhs. unfold hs at 1. cbn [mbind outcome_bind].
    set (inj1 := bind_value inj (Some EventType) (ValueOf_Event e)).
    set (w0 := with_heap (<[i:=inj1]> (heap_of w)) w).
    assert (dispatching i e hs (heap_of w0)) as Hdisp0.
    { exists inj1. split; [apply lookup_insert_eq|]. split; [apply lookup_insert_eq|done]. }
    assert (w_calls w0 = w_calls w) as <- by done.
    clearbody w0. clear Hi Hhs inj1.
    assert (forall k w0, dispatching i e hs (heap_of w0) ->
              exists w1,
                Invoke_all ordss (S fuel) i ((fun f => Some (f.1, DFunc (Some f.2))) <$> fs) k w0
                = (w1, Ret ())
                /\ w_calls w1 = w_calls w0 ++ ((fun f => (f.2, [ValueOf_Event e])) <$> fs)
                /\ dispatching i e hs (heap_of w1)) as Hall.
    { clear w0 Hdisp0. clearbody hs.
      induction Hfs as [|[ft fid] fs (Hk & Hins & Hvar) _ IH]; intros k w0 Hdisp0.
      - exists w0. by rewrite app_nil_r.
      - cbn [fmap list_fmap Invoke_all fst snd] in *.
        destruct Hdisp0 as (inj0 & Hi0 & Hev0 & Hhs0).
        rewrite (Invoke_event_handler _ _ _ _ inj0 e) by done.
        destruct w0 as [[s0 h0] calls0]. cbn [w_state w_calls heap_of snd] in *.
        destruct (Hkeep (ft, fid) s0 h0) as (s' & h' & rets & Hcall & Hdisp');
          [by left|by exists inj0|].
        cbn [snd] in Hcall. rewrite Hcall. cbn [fst snd mbind outcome_bind].
        destruct (IH (fun f s h Hin => Hkeep f s h (list_elem_of_further _ _ _ Hin))
                    (S k) (@mkWorld Handlers_Funcs (s', h') (calls0 ++ [(fid, [ValueOf_Event e])])) Hdisp')
          as (w1 & -> & Hcalls & Hdisp1).
        exists w1. split; [done|]. split; [|done]. rewrite Hcalls. cbn [w_calls].
        by rewrite <- (assoc_L (++)). }
    destruct (Hall 0 w0 Hdisp0) as (w1 & -> & Hcalls & Hdisp1). by exists w1. }
  exists w1. split; [done|]. split; [done|]. split; [done|].
  destruct Hdisp as (inj1 & Hi1 & Hev1 & _). by eapply Get_hit.
Qed.

(** What [Invoke] returns is dropped by [run]: when the first parameter of
    every handler of the kind has a type for which [Get] returns the zero
    Value, [run] calls nothing and returns normally, and no error is
    reported. *)
Theorem run_drops_errors ordss fuel h1 i inj e hs (w : world) :
  heap_of w !! i = Some inj ->
  handlers_at (handlers inj) (Type_ e) = Some hs ->
  Set_ (heap_of w) i (Some EventType) (ValueOf_Event e) = Ret h1 ->
  (forall k hd, hs !! k = Some hd ->
     exists ft fd t0 x,
       hd = Some (ft, fd) /\ rtype_Kind ft = KFunc /\ rtype_ins ft !! 0 = Some t0
       /\ Get (ordss k 0) fuel h1 i (Some t0) = Ret x /\ IsValid x = false) ->
  run ordss fuel i e w = (with_heap h1 w, Ret []).
Proof.
  intros Hi Hhs Hset Hbad. unfold run, heap_at. rewrite Hi, Hhs, Hset. cbn [mbind outcome_bind].
  set (w0 := with_heap h1 w).
  assert (heap_of w0 = h1) as Hw0 by done. clearbody w0.
  assert (forall k0, (forall k hd, hs !! k = Some hd ->
            exists ft fd t0 x,
              hd = Some (ft, fd) /\ rtype_Kind ft = KFunc /\ rtype_ins ft !! 0 = Some t0
              /\ Get (ordss (k0 + k) 0) fuel h1 i (Some t0) = Ret x /\ IsValid x = false) ->
            Invoke_all ordss fuel i hs k0 w0 = (w0, Ret ())) as Hall.
  { clear Hhs Hbad. induction hs as [|hd hs IH]; intros k0 Hbad; [done|].
    cbn [Invoke_all].
    destruct (Hbad 0 hd eq_refl) as (ft & fd & t0 & x & -> & Hk & Hin & Hget & Hinv).
    rewrite Nat.add_0_r in Hget. rewrite Hw0.
    assert (Invoke (ordss k0) fuel h1 i (Some (ft, fd)) w0
            = (w0, Ret (None, Some (Errorf_not_found (Some t0))))) as ->.
    { unfold Invoke. cbn [TypeOf fmap option_fmap option_map fst Type_NumIn].
      destruct (decide _) as [_|]; [|done].
      destruct (rtype_ins ft) as [|t0' ts] eqn:Hins; [done|]. injection Hin as ->.
      cbn [length seq].
      rewrite (Invoke_args_not_found _ _ _ _ ft [] [] 0 t0 (seq 1 (length ts)));
        [done|done|constructor|by rewrite Hins|eauto]. }
    apply IH. intros k hd' Hk'. specialize (Hbad (S k) hd' Hk').
    by rewrite Nat.add_succ_r in Hbad. }
  rewrite (Hall 0 Hbad). done.
Qed.

(** An event of a kind for which the injector has no handlers goes to the
    parent as it is: [run] calls nothing, leaves the injectors as they are
    and has the event to send on the events channel of the parent.  A
    waiting dispatch loop of the parent takes it, and the loop of the child
    waits in its [select] again; while no loop of the parent waits, the
    loop of the child stays inside [run].  Without a parent, [run]
    panics. *)
Theorem unknown_event_goes_to_parent ordss fuel i inj e (w : world) others :
  heap_of w !! i = Some inj ->
  handlers_at (handlers inj) (Type_ e) = None ->
  (parent inj = None ->
     run ordss fuel i e w = (w, Panic ("unknow event type  " +:+ Type_ e)))
  /\ (forall p, parent inj = Some p ->
        run ordss fuel i e w = (w, Ret [Send_events p e])
        /\ (dispatch_loop p ∉ others -> back_to_select i [Send_events p e] others = None)
        /\ (forall before after,
              others = before ++ dispatch_loop p :: after -> dispatch_loop p ∉ before ->
              back_to_select i [Send_events p e] others
              = Some (dispatch_loop i :: before ++ in_run p e :: after))).
Proof.
  intros Hi Hhs. unfold back_to_select, run, heap_at. rewrite Hi, Hhs.
  cbn [mbind outcome_bind].
  split; [by intros ->|]. intros p ->. split; [done|]. cbn [sends]. split.
  - intros Hnot. by rewrite send_events_None.
  - intros before after -> Hnot. by rewrite send_events_at.
Qed.

End DispatchProperties.

(** ** Handler slices that share an array *)

Section SliceProperties.
Context {R : Reflect}.

Lemma write_length pos xs l :
  pos + length xs <= length l -> length (write pos xs l) = length l.
Proof.
  intros Hle. unfold write. rewrite !length_app, length_take, length_drop. lia.
Qed.

Lemma elements_write off len xs l :
  off + len + length xs <= length l ->
  take (len + length xs) (drop off (write (off + len) xs l))
  = take len (drop off l) ++ xs.
Proof.
  intros Hle. unfold write.
  rewrite drop_app_le by (rewrite length_take; lia).
  rewrite <- take_drop_commute.
  rewrite (take_app_add' (take len (drop off l))) by (rewrite length_take, length_drop; lia).
  f_equal. rewrite take_app_length. done.
Qed.

Lemma append_slice_spec grow A s xs A' s' :
  within A s ->
  append_slice grow A s xs = (A', s') ->
  elements A' (Some s') = Some (range_slice (elements A (Some s)) ++ xs)
  /\ within A' s'
  /\ s_len s' = s_len s + length xs
  /\ (forall a, a <> s_array s -> is_Some (A !! a) -> A' !! a = A !! a)
  /\ (forall a, is_Some (A !! a) -> is_Some (A' !! a))
  /\ (s_array s' = s_array s \/ A !! s_array s' = None).
Proof.
  intros ([l Hl] & Hlen & Hcap). unfold append_slice.
  unfold array_at in *. rewrite Hl in *. cbn [from_option id] in *.
  destruct (decide _) as [Hfits|Hgrows]; intros [= <- <-];
    cbn [elements fmap option_fmap option_map s_array s_off s_len s_cap range_slice from_option id].
  - unfold array_at. rewrite Hl. cbn [from_option id]. rewrite lookup_insert_eq. cbn [from_option id].
    split; [by rewrite elements_write by lia|].
    split; [|split; [done|split; [|split; [|by left]]]].
    + unfold within, array_at. cbn [s_array s_off s_len s_cap].
      rewrite lookup_insert_eq. cbn [from_option id]. split; [done|]. split; [done|].
      rewrite write_length by lia. done.
    + intros a Hne _. by rewrite lookup_insert_ne.
    + intros a Ha. destruct (decide (a = s_array s)) as [->|Hne].
      * by rewrite lookup_insert_eq.
      * by rewrite lookup_insert_ne.
  - assert (A !! fresh (dom A) = None) as Hfresh
      by (apply not_elem_of_dom, is_fresh).
    unfold array_at. rewrite Hl. cbn [from_option id]. rewrite lookup_insert_eq. cbn [from_option id].
    assert (length (take (s_len s) (drop (s_off s) l)) = s_len s) as Hold
      by (rewrite length_take, length_drop; lia).
    split.
    { rewrite drop_0. rewrite (assoc_L (++)).
      rewrite take_app_length'; [done|]. rewrite length_app. lia. }
    split; [|split; [done|split; [|split; [|by right]]]].
    + unfold within, array_at. cbn [s_array s_off s_len s_cap].
      rewrite lookup_insert_eq. cbn [from_option id]. split; [done|]. split; [lia|].
      rewrite !length_app, length_replicate. lia.
    + intros a Hne [x Ha]. rewrite lookup_insert_ne; [done|]. congruence.
    + intros a [x Ha]. rewrite lookup_insert_ne; [by eexists|]. congruence.
Qed.


Lemma elements_before_write off len xs l :
  off + len + length xs <= length l ->
  take len (drop off (write (off + len) xs l)) = take len (drop off l).
Proof.
  intros Hle.
  assert (length (take len (drop off l)) = len) as Hold
    by (rewrite length_take, length_drop; lia).
  replace len with (len `min` (len + length xs)) at 1 by lia.
  rewrite <- take_take, elements_write by done.
  by rewrite take_app_length'.
Qed.

Lemma elements_agree A A' s :
  A' !! s_array s = A !! s_array s -> elements A' (Some s) = elements A (Some s).
Proof. intros Heq. cbn. unfold array_at. by rewrite Heq. Qed.

Lemma within_agree A A' s :
  A' !! s_array s = A !! s_array s -> within A s -> within A' s.
Proof. unfold within, array_at. by intros ->. Qed.

(** [On] on the table of slices and [On] on the table of their elements.
    They panic alike; for the kind that [On] is called for, the elements
    after the call are the ones [On] computes from the elements before,
    whatever is shared; no entry of the table becomes nil or shorter; and
    when the slices of the table are on arrays of their own, and the slice
    of handlers on yet another, the whole table has the elements that [On]
    computes, and the slices are again on arrays of their own. *)
Theorem On_slices_refines_On grow A tbl key arg h i inj :
  h !! i = Some inj ->
  handlers_at (handlers inj) key = elements A (slices_at tbl key) ->
  (forall s, slices_at tbl key = Some s -> within A s) ->
  (forall msg, On_slices grow A tbl key arg = Panic msg
               <-> On h i key (elements A arg) = Panic msg)
  /\ (forall A' tbl', On_slices grow A tbl key arg = Ret (A', tbl') ->
        exists h1 inj1,
          On h i key (elements A arg) = Ret h1 /\ h1 !! i = Some inj1
          /\ handlers_at (handlers inj1) key = elements A' (slices_at tbl' key)
          /\ values inj1 = values inj /\ parent inj1 = parent inj
          /\ (forall k s, slices_at tbl k = Some s ->
                exists s', slices_at tbl' k = Some s' /\ s_len s <= s_len s')
          /\ (handlers inj = table_of A tbl ->
              (forall k s, tbl !! k = Some (Some s) -> within A s) ->
              (forall a, arg = Some a -> within A a) ->
              separate tbl -> apart tbl arg ->
              handlers inj1 = table_of A' tbl'
              /\ (forall k s, tbl' !! k = Some (Some s) -> within A' s)
              /\ separate tbl')).
Proof.
  intros Hi Hagree Hkey. unfold On_slices, On, heap_at. rewrite Hi.
  destruct (validate_all (range_slice (elements A arg))) as [[]|msg|];
    cbn [mbind outcome_bind]; [|split; [intros; split; intros [= ->]; reflexivity|intros ? ? [=]]..].
  rewrite Hagree.
  split.
  { intros msg. destruct (slices_at tbl key) as [s|]; [|done].
    by destruct (append_slice grow A s _). }
  intros A' tbl'. destruct (slices_at tbl key) as [s|] eqn:Hs;
    cbn [elements fmap option_fmap option_map].
  - destruct (append_slice grow A s _) as [A1 s1] eqn:Happ. intros [= <- <-].
    destruct (append_slice_spec _ _ _ _ _ _ (Hkey s eq_refl) Happ)
      as (Hel & Hin1 & Hlen1 & Hsame & Hkeep & Hwhere).
    eexists _, _. split; [done|]. split; [apply lookup_insert_eq|].
    cbn [handlers values parent append range_slice from_option id] in *.
    split.
    { unfold handlers_at, slices_at. by rewrite !lookup_insert_eq. }
    split; [done|]. split; [done|]. split.
    { intros k s2 Hk. unfold slices_at. destruct (decide (k = key)) as [->|Hne].
      - rewrite lookup_insert_eq. exists s1. split; [done|].
        rewrite Hs in Hk. injection Hk as <-. lia.
      - rewrite lookup_insert_ne by done. by exists s2. }
    intros Htbl Hin _ Hsep _.
    assert (tbl !! key = Some (Some s)) as Hks.
    { unfold slices_at in Hs. by destruct (tbl !! key) as [[?|]|]; simplify_eq/=. }
    assert (forall k s2, k <> key -> tbl !! k = Some (Some s2) ->
                         A1 !! s_array s2 = A !! s_array s2) as Hother.
    { intros k s2 Hne Hk. apply Hsame; [|by apply (Hin k s2)].
      by apply (Hsep k key s2 s). }
    split; [|split].
    + rewrite Htbl. unfold table_of. rewrite fmap_insert. apply map_eq. intros k.
      destruct (decide (k = key)) as [->|Hne].
      * rewrite !lookup_insert_eq. by rewrite Hel.
      * rewrite !lookup_insert_ne, !lookup_fmap by done.
        destruct (tbl !! k) as [[s2|]|] eqn:Hk; [|done..].
        cbn -[elements]. by rewrite (elements_agree A A1 s2 (Hother k s2 Hne Hk)).
    + intros k s2. destruct (decide (k = key)) as [->|Hne].
      * rewrite lookup_insert_eq. by intros [= <-].
      * rewrite lookup_insert_ne by done. intros Hk.
        apply (within_agree A); [by apply (Hother k)|by apply (Hin k)].
    + intros k1 k2 t1 t2 Hne.
      destruct (decide (k1 = key)) as [->|Hne1]; destruct (decide (k2 = key)) as [->|Hne2];
        [done|..]; rewrite ?lookup_insert_eq, ?lookup_insert_ne by done.
      * intros [= <-] Hk2. destruct Hwhere as [->|Hnew]; [by apply (Hsep key k2)|].
        destruct (Hin k2 t2 Hk2) as [[l2 Hl2] _]. congruence.
      * intros Hk1 [= <-]. destruct Hwhere as [->|Hnew]; [by apply (Hsep k1 key)|].
        destruct (Hin k1 t1 Hk1) as [[l1 Hl1] _]. congruence.
      * by apply Hsep.
  - intros [= <- <-]. eexists _, _. split; [done|]. split; [apply lookup_insert_eq|].
    cbn [handlers values parent]. split.
    { unfold handlers_at, slices_at. by rewrite !lookup_insert_eq. }
    split; [done|]. split; [done|]. split.
    { intros k s2 Hk. unfold slices_at. destruct (decide (k = key)) as [->|Hne].
      - by rewrite Hs in Hk.
      - rewrite lookup_insert_ne by done. by exists s2. }
    intros Htbl Hin Harg Hsep Hapart. split; [|split].
    + rewrite Htbl. unfold table_of. by rewrite fmap_insert.
    + intros k s2. destruct (decide (k = key)) as [->|Hne].
      * rewrite lookup_insert_eq. intros [= ->]. by apply Harg.
      * rewrite lookup_insert_ne by done. apply Hin.
    + intros k1 k2 t1 t2 Hne.
      destruct (decide (k1 = key)) as [->|Hne1]; destruct (decide (k2 = key)) as [->|Hne2];
        [done|..]; rewrite ?lookup_insert_eq, ?lookup_insert_ne by done.
      * intros [= ->] Hk2. intros Heq. by apply (Hapart t1 k2 t2).
      * intros Hk1 [= ->]. by apply (Hapart t2 k1 t1).
      * by apply Hsep.
Qed.

(** Two kinds that hold the same slice, with room in its array: the
    handler that [On] appends for the first kind is overwritten by the one
    that [On] then appends for the second, and both kinds end with the
    handler of the second. *)
Theorem On_overwrites_shared_array grow A tbl k1 k2 s x y ax ay :
  k1 <> k2 ->
  tbl !! k1 = Some (Some s) -> tbl !! k2 = Some (Some s) ->
  within A s -> s_len s < s_cap s ->
  A !! ax = Some [x] -> A !! ay = Some [y] ->
  ax <> s_array s -> ay <> s_array s ->
  validateHandler x = Ret () -> validateHandler y = Ret () ->
  exists A1 tbl1 A2 tbl2,
    On_slices grow A tbl k1 (Some (mkSlice ax 0 1 1)) = Ret (A1, tbl1)
    /\ elements A1 (slices_at tbl1 k1) = Some (range_slice (elements A (Some s)) ++ [x])
    /\ On_slices grow A1 tbl1 k2 (Some (mkSlice ay 0 1 1)) = Ret (A2, tbl2)
    /\ elements A2 (slices_at tbl2 k2) = Some (range_slice (elements A (Some s)) ++ [y])
    /\ elements A2 (slices_at tbl2 k1) = Some (range_slice (elements A (Some s)) ++ [y]).
Proof.
  intros Hne Hk1 Hk2 ([l Hl] & Hlen & Hcap) Hroom Hax Hay Hnx Hny Hx Hy.
  unfold array_at in Hcap. rewrite Hl in Hcap. cbn [from_option id] in Hcap.
  set (s1 := mkSlice (s_array s) (s_off s) (s_len s + 1) (s_cap s)).
  set (l1 := write (s_off s + s_len s) [x] l).
  set (l2 := write (s_off s + s_len s) [y] l1).
  assert (length l1 = length l) as Hl1 by (apply write_length; cbn [length]; lia).
  exists (<[s_array s := l1]> A), (<[k1 := Some s1]> tbl),
         (<[s_array s := l2]> (<[s_array s := l1]> A)),
         (<[k2 := Some s1]> (<[k1 := Some s1]> tbl)).
  assert (On_slices grow A tbl k1 (Some (mkSlice ax 0 1 1))
          = Ret (<[s_array s := l1]> A, <[k1 := Some s1]> tbl)) as Hon1.
  { unfold On_slices, slices_at. rewrite Hk1.
    cbn [elements fmap option_fmap option_map s_array s_off s_len range_slice from_option id].
    unfold array_at. rewrite Hax.
    cbn [from_option id drop take validate_all mbind outcome_bind]. rewrite Hx.
    cbn [mbind outcome_bind]. unfold append_slice. cbn [length].
    destruct (decide _) as [_|]; [|lia]. unfold array_at. by rewrite Hl. }
  assert (On_slices grow (<[s_array s := l1]> A) (<[k1 := Some s1]> tbl) k2
            (Some (mkSlice ay 0 1 1))
          = Ret (<[s_array s := l2]> (<[s_array s := l1]> A),
                 <[k2 := Some s1]> (<[k1 := Some s1]> tbl))) as Hon2.
  { unfold On_slices, slices_at. rewrite lookup_insert_ne, Hk2 by done.
    cbn [elements fmap option_fmap option_map s_array s_off s_len range_slice from_option id].
    unfold array_at. rewrite lookup_insert_ne, Hay by done.
    cbn [from_option id drop take validate_all mbind outcome_bind]. rewrite Hy.
    cbn [mbind outcome_bind]. unfold append_slice. cbn [length].
    destruct (decide _) as [_|]; [|lia]. unfold array_at. by rewrite lookup_insert_eq. }
  assert (take (s_len s) (drop (s_off s) l1) = take (s_len s) (drop (s_off s) l)) as Hold1
    by (apply elements_before_write; cbn [length]; lia).
  assert (elements (<[s_array s := l2]> (<[s_array s := l1]> A)) (Some s1)
          = Some (range_slice (elements A (Some s)) ++ [y])) as Hend.
  { cbn [elements fmap option_fmap option_map s1 s_array s_off s_len range_slice from_option id].
    unfold array_at. rewrite lookup_insert_eq, Hl. cbn [from_option id]. f_equal.
    unfold l2. change (s_len s + 1) with (s_len s + length [y]).
    rewrite (elements_write (s_off s) (s_len s) [y] l1) by (cbn [length]; lia).
    by rewrite Hold1. }
  split; [done|]. split.
  { unfold slices_at. rewrite lookup_insert_eq.
    cbn [elements fmap option_fmap option_map s1 s_array s_off s_len range_slice from_option id].
    unfold array_at. rewrite lookup_insert_eq, Hl. cbn [from_option id]. f_equal.
    unfold l1. change (s_len s + 1) with (s_len s + length [x]).
    by rewrite (elements_write (s_off s) (s_len s) [x] l) by (cbn [length]; lia). }
  split; [done|]. split.
  - unfold slices_at. rewrite lookup_insert_eq. exact Hend.
  - unfold slices_at. rewrite lookup_insert_ne, lookup_insert_eq by done. exact Hend.
Qed.

End SliceProperties.

(** * The example program *)

#[local] Existing Instance demo_reflect.
#[local] Existing Instance demo_funcs.

(** The example injectors are what the calls of the API make. *)
Example example_heaps :
  New ∅ = (0, heap0)
  /\ Map heap0 0 a_string = Ret heap_string
  /\ Map heap0 0 a_slice = Ret heap_slice
  /\ (h1 ← MapTo 2 heap0 0 a_string nil_ptr_Stringer; Map h1 0 an_int) = Ret heap_mismatch
  /\ On heap0 0 "greet" (Some [a_handler]) = Ret heap_greet
  /\ SetParent heap_unlinked 0 (Some 1) = Ret heap_named.
Proof. repeat split; reflexivity. Qed.

Lemma demo_order_enumerates : enumerates demo_order.
Proof. by intros i m. Qed.

Lemma bindings_empty : bindings ∅.
Proof. intros k v Hk. by rewrite lookup_empty in Hk. Qed.

Lemma bindings_singleton (t : tid) (v : Value) :
  IsValid v = true -> bindings {[ Some t := v ]}.
Proof. intros Hv k w [<- <-]%lookup_singleton_Some. done. Qed.

Lemma Get_resolution_order_witness :
  Get demo_order 2 heap_named 0 (Some T.Name) = Ret (ValueOf a_name)
  /\ Get demo_order 2 heap_named 0 (Some T.Stringer) = Ret (ValueOf a_name)
  /\ Get demo_order 2 heap_named 0 (Some T.string)
     = Get demo_order 1 heap_named 1 (Some T.string).
Proof.
  pose proof (fun t => Get_resolution_order demo_order 1 heap_named 0 child_named t
                demo_order_enumerates eq_refl) as H.
  split; [|split].
  - apply (H T.Name); reflexivity.
  - destruct (H T.Stringer) as (_ & H2).
    destruct (H2 (bindings_singleton T.Name (ValueOf a_name) eq_refl) eq_refl) as [H2' _].
    apply (H2' eq_refl [] T.Name (ValueOf a_name) []); [reflexivity| |reflexivity].
    intros k' v' Hin. by apply elem_of_nil in Hin.
  - destruct (H T.string) as (_ & H3).
    destruct (H3 (bindings_singleton T.Name (ValueOf a_name) eq_refl) eq_refl) as [_ H3'].
    apply H3'. left. discriminate.
Defined.


Lemma child_Get_through_parent_witness :
  (exists h1, SetParent heap_unlinked 0 (Some 1) = Ret h1
              /\ Get demo_order 2 h1 0 (Some T.string) = Ret (ValueOf a_string))
  /\ (exists h1, SetParent heap_both 0 (Some 1) = Ret h1
                 /\ Get demo_order 2 h1 0 (Some T.string) = Ret (ValueOf another_string)).
Proof.
  split.
  - destruct (child_Get_through_parent demo_order 0 heap_unlinked 0 1
                (mkInjector {[ Some T.Name := ValueOf a_name ]} ∅ None)
                (mkInjector {[ Some T.string := ValueOf a_string ]} ∅ None)
                T.string (ValueOf a_string)
                demo_order_enumerates eq_refl eq_refl ltac:(discriminate)
                (bindings_singleton T.Name (ValueOf a_name) eq_refl) eq_refl eq_refl)
      as (h1 & Hset & Hparent & _).
    exists h1. split; [exact Hset|].
    destruct (Hparent eq_refl) as (w & Hget & _ & _ & Hw).
    rewrite Hget. f_equal. apply Hw. left. discriminate.
  - destruct (child_Get_through_parent demo_order 0 heap_both 0 1
                (mkInjector {[ Some T.string := ValueOf another_string ]} ∅ None)
                (mkInjector {[ Some T.string := ValueOf a_string ]} ∅ None)
                T.string (ValueOf a_string)
                demo_order_enumerates eq_refl eq_refl ltac:(discriminate)
                (bindings_singleton T.string (ValueOf another_string) eq_refl)
                eq_refl eq_refl)
      as (h1 & Hset & _ & Hchild).
    exists h1. split; [exact Hset|]. apply Hchild. reflexivity.
Defined.

(** A type the parent binds is not always resolved to the parent's value:
    the child's own implementor of the interface comes first. *)
Example child_implementor_before_parent :
  Get demo_order 2 heap_implementor 1 (Some T.Stringer) = Ret (ValueOf a_name)
  /\ Get demo_order 2 heap_implementor 0 (Some T.Stringer) = Ret (ValueOf another_name).
Proof. split; reflexivity. Qed.

Lemma MapTo_binds_unchecked_witness :
  implements T.Reader T.Name = false
  /\ exists h1, MapTo 2 heap0 0 a_name nil_ptr_Reader = Ret h1
                /\ Get demo_order 1 h1 0 (Some T.Reader) = Ret (ValueOf a_name).
Proof.
  split; [reflexivity|].
  destruct (MapTo_binds_unchecked (R := demo_reflect) demo_order 0 0 heap0 0
              (mkInjector ∅ ∅ None)
              T.Name (DString "gopher") T.ptr_Reader (DPtr None)
              eq_refl eq_refl eq_refl) as (h1 & inj1 & Hmap & _ & _ & Hget).
  exists h1. split; [exact Hmap|exact Hget].
Defined.

(** C7, on the code.  A handler [func(int)], whose first parameter is not
    an Event, passes [validateHandler], and [On] registers it. *)
Theorem On_accepts_handler_without_Event :
  rtype_ins T.func_int !! 0 = Some T.int
  /\ T.int <> EventType
  /\ validateHandler a_func_int = Ret ()
  /\ exists h1 inj1,
       On heap0 0 "greet" (Some [a_func_int]) = Ret h1
       /\ h1 !! 0 = Some inj1
       /\ handlers_at (handlers inj1) "greet" = Some [a_func_int].
Proof.
  split; [reflexivity|]. split; [discriminate|]. split; [reflexivity|].
  eexists _, _. split; [reflexivity|]. split; reflexivity.
Qed.

Lemma Fire_sends_when_registered_witness :
  Fire heap_greet 0 "other" an_int = Ret []
  /\ Fire heap_greet 0 "greet" an_int = Ret [Send_events 0 (mkEvent 0 "greet" an_int)].
Proof.
  destruct (Fire_sends_when_registered heap_greet 0
              (mkInjector ∅ {[ "greet" := Some [a_handler] ]} None) "other" an_int eq_refl)
    as (Hnone & _ & _).
  destruct (Fire_sends_when_registered heap_greet 0
              (mkInjector ∅ {[ "greet" := Some [a_handler] ]} None) "greet" an_int eq_refl)
    as (_ & Hsome & _).
  split.
  - apply Hnone. reflexivity.
  - destruct (Hsome [a_handler] eq_refl) as ([src kind payload] & Hfire & Hsrc & Hkind & Hdata).
    simpl in Hsrc, Hkind, Hdata. rewrite Hfire, Hsrc, Hkind, Hdata. reflexivity.
Defined.

(** C8 fails on the code where a kind has a handler slice without
    handlers: after [On] with an empty slice that is not nil, no handler is
    registered for the kind, and [Fire] sends the Event. *)
Lemma Fire_sends_without_handlers :
  exists h1 inj1,
    On heap0 0 "greet" (Some []) = Ret h1
    /\ h1 !! 0 = Some inj1
    /\ range_slice (handlers_at (handlers inj1) "greet") = []
    /\ Fire h1 0 "greet" an_int = Ret [Send_events 0 (mkEvent 0 "greet" an_int)].
Proof. eexists _, _. repeat split; reflexivity. Qed.

Lemma Stop_returns_iff_loop_waits_witness :
  do_calls [] [call_Start 0; call_Stop 0] = ([], [])
  /\ do_calls [] [call_Start 0; call_send (Send_events 0 greeting); call_Stop 0]
     = ([in_run 0 greeting], [call_Stop 0]).
Proof.
  destruct (Stop_returns_iff_loop_waits [] 0) as (_ & _ & Hpair & _ & Hbusy).
  split; [exact Hpair|]. apply Hbusy. intros Hin. inversion Hin.
Defined.

(** C9 fails on the code: after [Start] and one [Stop], the caller of a
    second [Stop] blocks, and so does the caller of [Stop] on an injector
    that was never started. *)
Lemma second_Stop_blocks :
  do_calls [] [call_Start 0; call_Stop 0; call_Stop 0] = ([], [call_Stop 0])
  /\ Stop [] 0 = None
  /\ do_calls [] [call_Stop 0] = ([], [call_Stop 0]).
Proof. split; [|split]; reflexivity. Qed.

Lemma Invoke_error_or_call_witness :
  rtype_Kind T.func_Stringer_int = KFunc
  /\ Invoke demo_orders 2 heap_named 0 a_func_Stringer_int demo_world
     = (demo_world, Ret (None, Some "Value not found for type int"))
  /\ exists args,
       Invoke demo_orders 2 heap_string 0 a_func_string demo_world
       = (mkWorld (fn_call 2 args 0).1 [(2, args)],
          rets ← (fn_call 2 args 0).2; Ret (Some rets, None)).
Proof.
  split; [reflexivity|]. split.
  - destruct (Invoke_error_or_call (R := demo_reflect) demo_orders 2 heap_named 0
                T.func_Stringer_int (DFunc (Some 3)) demo_world eq_refl) as [Herr _].
    apply (Herr 1 T.int [ValueOf a_name]); [reflexivity|reflexivity| |].
    + intros [|[|i]] x Hx; [|discriminate Hx..]. injection Hx as <-.
      exists T.Stringer. split; [reflexivity|]. split; reflexivity.
    + exists ZeroValue. split; reflexivity.
  - destruct (Invoke_error_or_call (R := demo_reflect) demo_orders 2 heap_string 0
                T.func_string (DFunc (Some 2)) demo_world eq_refl) as [_ Hcall].
    destruct (Hcall 2 [ValueOf a_string] eq_refl eq_refl) as (args & _ & Hinv).
    + constructor; [|constructor].
      exists T.string, (DString "hello"), None. split; reflexivity.
    + intros [|[|i]] x Hx; [|discriminate Hx..]. injection Hx as <-.
      exists T.string. split; reflexivity.
    + exists args. exact Hinv.
Defined.

(** C4 fails on the code: every parameter type resolves, and [Invoke]
    panics in [Call] without calling the function; for a variadic function
    [func(...int)] after [Map([]int{1, 2})], whose slice [Call] takes for
    one element of the variadic parameter, and for [func(Stringer, int)]
    after a string was bound with [MapTo] to the interface Stringer, which
    it does not implement. *)
Lemma Invoke_panics_though_resolved :
  (Map heap0 0 a_slice = Ret heap_slice
   /\ Get demo_order 2 heap_slice 0 (Some T.slice_int) = Ret (ValueOf a_slice)
   /\ Invoke demo_orders 2 heap_slice 0 a_func_variadic demo_world
      = (demo_world, Panic "reflect: cannot use []int as type int in Call"))
  /\ ((h1 ← MapTo 2 heap0 0 a_string nil_ptr_Stringer; Map h1 0 an_int) = Ret heap_mismatch
      /\ Get demo_order 2 heap_mismatch 0 (Some T.Stringer) = Ret (ValueOf a_string)
      /\ Get demo_order 2 heap_mismatch 0 (Some T.int) = Ret (ValueOf an_int)
      /\ Invoke demo_orders 2 heap_mismatch 0 a_func_Stringer_int demo_world
         = (demo_world, Panic "reflect: Call using string as type main.Stringer")).
Proof. repeat split; reflexivity. Qed.

Lemma Apply_error_at_first_unresolved_witness :
  follow_pointers 2 demo_memory (ValueOf ptr_to_service)
  = Ret (Val T.Service a_service (Some (0, [])) false)
  /\ exists mem',
       Apply demo_orders 2 heap_string 0 ptr_to_service demo_memory
       = (mem', Ret (Some "Value not found for type int"))
       /\ data_get [0] (mem' 0) = Some (DString "hello")
       /\ data_get [2] (mem' 0) = Some (DWord 0).
Proof.
  split; [reflexivity|].
  destruct (Apply_error_at_first_unresolved (R := demo_reflect) demo_orders 2 heap_string 0
              ptr_to_service demo_memory T.Service a_service 0 2
              (mkStructField "Count" "" T.int "inject") ZeroValue
              eq_refl eq_refl eq_refl eq_refl eq_refl eq_refl eq_refl)
    as (mem' & Happly & Hset & Hkept).
  - intros [|[|i]] sfi Hi Hsf Hexp Htag; [| |lia].
    + injection Hsf as <-. exists (ValueOf a_string). split; [reflexivity|].
      exists T.string, (DString "hello"), None. split; reflexivity.
    + injection Hsf as <-. discriminate Htag.
  - exists mem'. split; [exact Happly|]. split.
    + apply (Hset 0 (mkStructField "Greeting" "" T.string "inject") (ValueOf a_string)
               (ValueOf a_string)); try reflexivity; [lia|by eexists].
    + rewrite (Hkept 2) by lia. reflexivity.
Defined.

(** C5 fails on the code: a tagged field that is not settable is skipped
    without being resolved.  No type is bound, and [Apply] returns the nil
    error for a struct passed by value and for a struct whose tagged field
    is unexported. *)
Lemma Apply_skips_unsettable_fields :
  Get demo_order 2 heap0 0 (Some T.string) = Ret ZeroValue
  /\ Get demo_order 2 heap0 0 (Some T.int) = Ret ZeroValue
  /\ inject_tag (mkStructField "Greeting" "" T.string "inject") = true
  /\ (Apply demo_orders 2 heap0 0 service_by_value demo_memory).2 = Ret None
  /\ inject_tag (mkStructField "hidden" "main" T.int "inject") = true
  /\ (Apply demo_orders 2 heap0 0 ptr_to_secret demo_memory).2 = Ret None.
Proof. repeat split; reflexivity. Qed.

Lemma Apply_writes_only_tagged_fields_witness :
  (let r := Apply demo_orders 2 heap_string 0 ptr_to_service demo_memory in
   data_get [0] (r.1 0) = Some (DString "hello")
   /\ data_get [1] (r.1 0) = data_get [1] (demo_memory 0)
   /\ r.1 1 = demo_memory 1)
  /\ Apply demo_orders 2 heap_string 0 an_int demo_memory = (demo_memory, Ret None).
Proof.
  split.
  - intros r. split; [reflexivity|].
    destruct (Apply_writes_only_tagged_fields (R := demo_reflect) demo_orders 2 heap_string 0
                ptr_to_service demo_memory r.1 r.2 (surjective_pairing r))
      as (_ & _ & _ & Hstruct).
    destruct (Hstruct T.Service a_service 0 [] false eq_refl) as (_ & Hothers & Huntagged).
    split.
    + apply (Huntagged 1 (mkStructField "Note" "" T.string "")); reflexivity.
    + apply Hothers. discriminate.
  - destruct (Apply demo_orders 2 heap_string 0 an_int demo_memory) as [mem' r] eqn:Happly.
    destruct (Apply_writes_only_tagged_fields (R := demo_reflect) demo_orders 2 heap_string 0
                an_int demo_memory mem' r Happly) as (_ & Hplain & _ & _).
    rewrite <- Happly. apply (Hplain ltac:(discriminate) ltac:(discriminate) 1).
Defined.

(** [Apply] on a pointer to a Service when the string and the int are
    bound: the two exported tagged fields are set, the untagged field and
    the unexported one are as they were, and the error is nil. *)
Example Apply_sets_the_tagged_fields :
  let r := Apply demo_orders 2 heap_string_int 0 ptr_to_service demo_memory in
  r.2 = Ret None
  /\ r.1 0 = DStruct [DString "hello"; DString "keep me"; DWord 7; DString ""].
Proof. split; reflexivity. Qed.

(** The send of [Fire] completes once a dispatch loop runs, and blocks the
    caller before [Start]. *)
Example Fire_needs_running_loop :
  Fire heap_greet 0 "greet" an_int = Ret [Send_events 0 (mkEvent 0 "greet" an_int)]
  /\ send [] (Send_events 0 (mkEvent 0 "greet" an_int)) = None
  /\ send [dispatch_loop 0] (Send_events 0 (mkEvent 0 "greet" an_int))
     = Some [in_run 0 (mkEvent 0 "greet" an_int)].
Proof. repeat split; reflexivity. Qed.

(** ** Examples for the rest of the code *)

#[local] Existing Instance demo_layout.

Lemma InterfaceOf_pointer_chain_witness :
  InterfaceOf 2 nil_ptr_Stringer = Ret T.Stringer
  /\ InterfaceOf 2 ptr_to_service
     = Panic "Called inject.InterfaceOf with a value that is not a pointer to an interface. (*MyInterface)(nil)".
Proof.
  split.
  - apply (InterfaceOf_pointer_chain (R := demo_reflect) 1 2 T.ptr_Stringer (DPtr None));
      [|discriminate|lia|reflexivity].
    intros [|k] Hk; [reflexivity|lia].
  - apply (InterfaceOf_pointer_chain (R := demo_reflect) 1 2 T.ptr_Service (DPtr (Some 0)));
      [|discriminate|lia|discriminate].
    intros [|k] Hk; [reflexivity|lia].
Defined.

Lemma Set_then_Get_witness :
  exists h1, Set_ heap0 0 None (ValueOf an_int) = Ret h1
             /\ Get demo_order 1 h1 0 None = Ret (ValueOf an_int).
Proof.
  destruct (Set_then_Get (R := demo_reflect) demo_order 0 heap0 0 (mkInjector ∅ ∅ None)
              None (ValueOf an_int) eq_refl eq_refl) as (h1 & inj1 & Hset & _ & Hget & _).
  exists h1. split; [exact Hset|exact Hget].
Defined.

Lemma Set_zero_unbinds_witness :
  Get demo_order 1 heap_string 0 (Some T.string) = Ret (ValueOf a_string)
  /\ exists h1, Set_ heap_string 0 (Some T.string) ZeroValue = Ret h1
                /\ Get demo_order 1 h1 0 (Some T.string) = Ret ZeroValue.
Proof.
  split; [reflexivity|].
  destruct (Set_zero_unbinds (R := demo_reflect) demo_order 0 heap_string 0 string_only
              T.string eq_refl ltac:(discriminate)) as (h1 & Hset & Hget).
  exists h1. split; [exact Hset|exact Hget].
Defined.

Lemma Get_unique_implementor_witness :
  Get demo_order 1 heap_named 0 (Some T.Stringer) = Ret (ValueOf a_name).
Proof.
  apply (Get_unique_implementor (R := demo_reflect) demo_order 0 heap_named 0 child_named
           T.Stringer T.Name (ValueOf a_name) demo_order_enumerates eq_refl
           (bindings_singleton T.Name (ValueOf a_name) eq_refl) eq_refl eq_refl eq_refl eq_refl).
  intros k' v' Hk' _. unfold child_named in Hk'. cbn [values] in Hk'.
  apply lookup_singleton_Some in Hk' as [Hk' _]. by injection Hk'.
Defined.

Lemma Get_nearest_ancestor_witness :
  Get demo_order 3 heap_chain 0 (Some T.string) = Ret (ValueOf a_string).
Proof.
  apply (Get_nearest_ancestor (R := demo_reflect) demo_order 2 0 heap_chain 0 2
           (mkInjector {[ Some T.string := ValueOf a_string ]} ∅ None) T.string
           (ValueOf a_string) ltac:(discriminate) eq_refl eq_refl eq_refl eq_refl).
  intros [|[|lvl]] Hlvl; [| |lia].
  - exists 0, (mkInjector ∅ ∅ (Some 1)). repeat split; reflexivity.
  - exists 1, (mkInjector {[ Some T.int := ValueOf an_int ]} ∅ (Some 2)).
    repeat split; reflexivity.
Defined.

Lemma Get_never_returns_on_cycle_witness :
  (exists h1, Map heap0 0 an_int = Ret h1 /\ SetParent h1 0 (Some 0) = Ret heap_cycle)
  /\ forall fuel, Get demo_order fuel heap_cycle 0 (Some T.string) = Timeout
                  /\ Get demo_order fuel heap_cycle 0 (Some T.Stringer) = Timeout.
Proof.
  split; [eexists; split; reflexivity|]. intros fuel.
  assert (forall n, nth_ancestor heap_cycle n 0 = Some 0) as Hnth
    by (intros n; induction n as [|n IH]; [reflexivity|exact IH]).
  split.
  - apply (Get_never_returns_on_cycle (R := demo_reflect)); [apply demo_order_enumerates|].
    intros n. exists 0, (mkInjector {[ Some T.int := ValueOf an_int ]} ∅ (Some 0)).
    split; [apply Hnth|]. split; [reflexivity|]. split; [reflexivity|].
    split; [discriminate|by eexists].
  - apply (Get_never_returns_on_cycle (R := demo_reflect)); [apply demo_order_enumerates|].
    intros n. exists 0, (mkInjector {[ Some T.int := ValueOf an_int ]} ∅ (Some 0)).
    split; [apply Hnth|]. split; [reflexivity|]. split; [reflexivity|].
    split; [|by eexists].
    intros _ key v Hkey. cbn [values] in Hkey.
    apply lookup_singleton_Some in Hkey as [<- _]. exists T.int. split; reflexivity.
Defined.

Lemma Get_unchanged_by_other_injectors_witness :
  exists h1, Map heap_named 0 an_int = Ret h1
             /\ Get demo_order 2 h1 0 (Some T.int) = Ret (ValueOf an_int)
             /\ Get demo_order 2 h1 1 (Some T.int) = Ret ZeroValue.
Proof.
  exists (<[0 := bind_value child_named (Some T.int) (ValueOf an_int)]> heap_named).
  split; [reflexivity|]. split; [reflexivity|].
  transitivity (Get demo_order 2 heap_named 1 (Some T.int)); [|reflexivity].
  apply (Get_unchanged_by_other_injectors (R := demo_reflect) demo_order 2 0 heap_named _
           (do_Map 0 an_int) 1 (Some T.int) eq_refl).
  left. intros [|[|lvl]]; discriminate.
Defined.

Lemma New_is_empty_witness :
  exists i h1, New heap_named = (i, h1)
               /\ heap_named !! i = None
               /\ Get demo_order 1 h1 i (Some T.Stringer) = Ret ZeroValue
               /\ Fire h1 i "greet" an_int = Ret [].
Proof.
  exists (New heap_named).1, (New heap_named).2.
  destruct (New_is_empty (R := demo_reflect) demo_order heap_named (New heap_named).1
              (New heap_named).2 (surjective_pairing _)) as (Hfresh & _ & Hget & Hfire).
  split; [apply surjective_pairing|]. split; [exact Hfresh|].
  split; [apply (Hget demo_order_enumerates)|apply Hfire].
Defined.

Lemma On_twice_witness :
  exists h1 h2 inj2,
    On heap0 0 "greet" (Some [a_handler]) = Ret h1
    /\ On h1 0 "greet" (Some [another_handler]) = Ret h2
    /\ h2 !! 0 = Some inj2
    /\ handlers_at (handlers inj2) "greet" = Some [a_handler; another_handler].
Proof.
  destruct (On_twice (R := demo_reflect) heap0 0 "greet" [a_handler] [another_handler]
              heap_greet heap_two_handlers eq_refl eq_refl)
    as (inj & inj2 & Hi & Hi2 & Hhs & _).
  exists heap_greet, heap_two_handlers, inj2.
  split; [reflexivity|]. split; [reflexivity|]. split; [exact Hi2|].
  injection Hi as <-. exact Hhs.
Defined.

Lemma registered_kind_stays_registered_witness :
  exists h1,
    run_updates 2 heap_greet [do_Map 0 an_int; do_On 0 "greet" (Some [another_handler]);
                              do_On 0 "other" None] = Ret h1
    /\ Fire h1 0 "greet" a_string = Ret [Send_events 0 (mkEvent 0 "greet" a_string)].
Proof.
  eexists. split; [reflexivity|].
  destruct (registered_kind_stays_registered (R := demo_reflect) 2
              [do_Map 0 an_int; do_On 0 "greet" (Some [another_handler]); do_On 0 "other" None]
              heap_greet _ 0 (mkInjector ∅ {[ "greet" := Some [a_handler] ]} None)
              "greet" [a_handler] eq_refl eq_refl eq_refl) as (inj' & hs' & _ & _ & _ & Hfire).
  apply Hfire.
Defined.

Lemma Apply_without_settable_tagged_field_witness :
  Apply demo_orders 1 heap0 0 service_by_value demo_memory = (demo_memory, Ret None)
  /\ Apply demo_orders 2 heap0 0 ptr_to_secret demo_memory = (demo_memory, Ret None).
Proof.
  split.
  - apply (Apply_without_settable_tagged_field (R := demo_reflect) demo_orders 1 heap0 0
             service_by_value demo_memory T.Service a_service None false eq_refl eq_refl).
    intros sf _. by left.
  - apply (Apply_without_settable_tagged_field (R := demo_reflect) demo_orders 2 heap0 0
             ptr_to_secret demo_memory T.Secret a_secret (Some (1, [])) false eq_refl eq_refl).
    intros sf Hsf. apply list_elem_of_singleton in Hsf as ->. right. right. left. discriminate.
Defined.

Lemma Apply_sets_every_tagged_field_witness :
  exists mem',
    Apply demo_orders 2 heap_string_int 0 ptr_to_service demo_memory = (mem', Ret None)
    /\ data_get [0] (mem' 0) = Some (DString "hello")
    /\ data_get [1] (mem' 0) = Some (DString "keep me")
    /\ data_get [2] (mem' 0) = Some (DWord 7).
Proof.
  destruct (Apply_sets_every_tagged_field (R := demo_reflect) demo_orders 2 heap_string_int 0
              ptr_to_service demo_memory T.Service a_service 0 eq_refl eq_refl)
    as (mem' & Happly & _ & Hskipped & Hset).
  - intros [|[|[|[|i]]]] sfi Hsf Hexp Htag; [| | | |discriminate Hsf];
      injection Hsf as <-;
      [|vm_compute in Htag; discriminate Htag| |vm_compute in Hexp; discriminate Hexp].
    + exists (ValueOf a_string). split; [reflexivity|].
      exists T.string, (DString "hello"), None. split; reflexivity.
    + exists (ValueOf an_int). split; [reflexivity|].
      exists T.int, (DWord 7), None. split; reflexivity.
  - exists mem'. split; [exact Happly|]. split; [|split].
    + apply (Hset 0 (mkStructField "Greeting" "" T.string "inject") (ValueOf a_string)
               (ValueOf a_string)); try reflexivity. by eexists.
    + rewrite (Hskipped 1 (mkStructField "Note" "" T.string "")); [reflexivity..|].
      by right.
    + apply (Hset 2 (mkStructField "Count" "" T.int "inject") (ValueOf an_int)
               (ValueOf an_int)); try reflexivity. by eexists.
Defined.

Lemma run_calls_handlers_in_order_witness :
  exists w1,
    run demo_orderss 1 0 greeting (world_of heap_two_handlers) = (w1, Ret [])
    /\ w_calls w1 = [(0, [ValueOf_Event greeting]); (5, [ValueOf_Event greeting])]
    /\ Get demo_order 1 (heap_of w1) 0 (Some T.Event) = Ret (ValueOf_Event greeting).
Proof.
  destruct (run_calls_handlers_in_order (R := demo_reflect) (L := demo_layout)
              (HS := demo_handlers) demo_orderss demo_order 0 0 0
              (mkInjector ∅ {[ "greet" := Some [a_handler; another_handler] ]} None)
              greeting [(T.func_Event, 0); (T.func_Event, 5)]
              (world_of heap_two_handlers) eq_refl eq_refl)
    as (w1 & Hrun & Hcalls & _ & Hget).
  - repeat constructor.
  - intros f s h Hf Hdisp. exists (S s), h, [].
    split; [|exact Hdisp].
    apply elem_of_cons in Hf as [->|Hf]; [reflexivity|].
    apply list_elem_of_singleton in Hf as ->. reflexivity.
  - exists w1. split; [exact Hrun|]. split; [exact Hcalls|exact Hget].
Defined.

(** A handler that binds something else to the Event type changes what the
    handlers after it are called with. *)
Example handler_rebinds_Event :
  exists w1,
    run demo_orderss 1 0 greeting (world_of heap_rebinding) = (w1, Ret [])
    /\ w_calls w1 = [(7, [ValueOf_Event greeting]); (5, [ValueOf_Event farewell])].
Proof. eexists. split; reflexivity. Qed.

Lemma run_drops_errors_witness :
  On heap0 0 "greet" (Some [a_func_int]) = Ret heap_int_handler
  /\ exists h1, run demo_orderss 1 0 greeting (world_of heap_int_handler)
                = (world_of h1, Ret []).
Proof.
  split; [reflexivity|]. eexists.
  apply (run_drops_errors (R := demo_reflect) (L := demo_layout) (HS := demo_handlers)
           demo_orderss 1 _ 0
           (mkInjector ∅ {[ "greet" := Some [a_func_int] ]} None)
           greeting [a_func_int] (world_of heap_int_handler) eq_refl eq_refl eq_refl).
  intros [|k] hd Hhd; [|discriminate]. injection Hhd as <-.
  exists T.func_int, (DFunc (Some 1)), T.int, ZeroValue. repeat split; reflexivity.
Defined.

Lemma unknown_event_goes_to_parent_witness :
  run demo_orderss 1 0 greeting (world_of heap_forward)
  = (world_of heap_forward, Ret [Send_events 1 greeting])
  /\ back_to_select 0 [Send_events 1 greeting] [dispatch_loop 1]
     = Some [dispatch_loop 0; in_run 1 greeting]
  /\ back_to_select 0 [Send_events 1 greeting] [in_run 1 farewell] = None
  /\ run demo_orderss 1 0 greeting (world_of heap0)
     = (world_of heap0, Panic "unknow event type  greet").
Proof.
  destruct (unknown_event_goes_to_parent (R := demo_reflect) (L := demo_layout)
              (HS := demo_handlers) demo_orderss 1 0 (mkInjector ∅ ∅ (Some 1)) greeting
              (world_of heap_forward) [dispatch_loop 1] eq_refl eq_refl) as [_ Hparent].
  destruct (Hparent 1 eq_refl) as (Hrun & _ & Hsend).
  destruct (unknown_event_goes_to_parent (R := demo_reflect) (L := demo_layout)
              (HS := demo_handlers) demo_orderss 1 0 (mkInjector ∅ ∅ (Some 1)) greeting
              (world_of heap_forward) [in_run 1 farewell] eq_refl eq_refl) as [_ Hparent'].
  destruct (Hparent' 1 eq_refl) as (_ & Hblocks & _).
  destruct (unknown_event_goes_to_parent (R := demo_reflect) (L := demo_layout)
              (HS := demo_handlers) demo_orderss 1 0 (mkInjector ∅ ∅ None) greeting
              (world_of heap0) [] eq_refl eq_refl) as [Hpanic _].
  split; [exact Hrun|]. split; [|split].
  - apply (Hsend [] []); [reflexivity|]. intros Hin. inversion Hin.
  - apply Hblocks. intros Hin. apply list_elem_of_singleton in Hin. discriminate Hin.
  - apply Hpanic. reflexivity.
Defined.

Lemma validateHandler_accepts_iff_witness :
  validateHandler a_handler = Ret ()
  /\ validateHandler a_func_int = Ret ()
  /\ validateHandler an_int = Panic "inject handler must be a callable func".
Proof.
  split; [|split].
  - apply (proj1 (validateHandler_accepts_iff (R := demo_reflect) a_handler)).
    exists T.func_Event, (DFunc (Some 0)). split; [reflexivity|]. split; [reflexivity|discriminate].
  - apply (proj1 (validateHandler_accepts_iff (R := demo_reflect) a_func_int)).
    exists T.func_int, (DFunc (Some 1)). split; [reflexivity|]. split; [reflexivity|discriminate].
  - apply (proj1 (proj2 (validateHandler_accepts_iff (R := demo_reflect) an_int))
             T.int (DWord 7) eq_refl). discriminate.
Defined.

Lemma Invoke_panics_unless_func_witness :
  Invoke demo_orders 1 heap_string_int 0 None demo_world = (demo_world, Panic nil_dereference)
  /\ Invoke demo_orders 1 heap_string_int 0 an_int demo_world
     = (demo_world, Panic "reflect: NumIn of non-func type").
Proof.
  split.
  - apply (proj1 (Invoke_panics_unless_func (R := demo_reflect) (F := demo_funcs)
                    demo_orders 1 heap_string_int 0 None demo_world) eq_refl).
  - apply (proj1 (proj2 (Invoke_panics_unless_func (R := demo_reflect) (F := demo_funcs)
                           demo_orders 1 heap_string_int 0 an_int demo_world))
             T.int (DWord 7) eq_refl). discriminate.
Defined.

Lemma Apply_nil_is_noop_witness :
  Apply demo_orders 2 heap_string_int 0 nil_ptr_Stringer demo_memory = (demo_memory, Ret None).
Proof.
  apply (proj2 (Apply_nil_is_noop (R := demo_reflect) demo_orders 0 heap_string_int 0
                  demo_memory) T.ptr_Stringer eq_refl).
Defined.

Lemma Starts_then_Stops_witness :
  do_calls [] [call_Start 0; call_Start 0; call_Stop 0; call_Stop 0] = ([], [])
  /\ do_calls [] [call_Start 0; call_Stop 0; call_Stop 0] = ([], [call_Stop 0]).
Proof.
  split.
  - apply (proj1 (Starts_then_Stops [] 0 2 2)). lia.
  - apply (proj2 (Starts_then_Stops [] 0 1 2)); [|lia]. intros Hin. inversion Hin.
Defined.

Lemma events_send_needs_loop_witness :
  send [dispatch_loop 1] (Send_events 0 greeting) = None
  /\ do_calls [dispatch_loop 1]
       [call_Start 0; call_send (Send_events 0 greeting); call_send (Send_events 0 farewell)]
     = ([in_run 0 greeting; dispatch_loop 1], [call_send (Send_events 0 farewell)]).
Proof.
  assert (dispatch_loop 0 ∉ [dispatch_loop 1]) as Hnot.
  { intros Hin. apply list_elem_of_singleton in Hin. discriminate Hin. }
  destruct (events_send_needs_loop [dispatch_loop 1] 0 greeting) as (Hiff & _ & Hsecond).
  split.
  - destruct (send [dispatch_loop 1] (Send_events 0 greeting)) as [pool'|] eqn:Hsend;
      [|reflexivity].
    destruct Hnot. apply Hiff. by eexists.
  - apply (Hsecond Hnot farewell).
Defined.

Ltac solve_within := split; [eexists; reflexivity|split; vm_compute; lia].

Lemma On_slices_refines_On_witness :
  exists A' tbl' inj1,
    On_slices doubling greet_arrays greet_table "greet" (Some (mkSlice 1 0 1 1)) = Ret (A', tbl')
    /\ heap_two_handlers !! 0 = Some inj1
    /\ handlers inj1 = table_of A' tbl'
    /\ separate tbl'.
Proof.
  destruct (On_slices_refines_On (R := demo_reflect) doubling greet_arrays greet_table "greet"
              (Some (mkSlice 1 0 1 1)) heap_greet 0
              (mkInjector ∅ {[ "greet" := Some [a_handler] ]} None) eq_refl eq_refl)
    as [_ Hret].
  - intros s Hs. injection Hs as <-. solve_within.
  - destruct (On_slices doubling greet_arrays greet_table "greet" (Some (mkSlice 1 0 1 1)))
      as [[A' tbl']| |] eqn:Hon; [|discriminate Hon..].
    destruct (Hret A' tbl' eq_refl) as (h1 & inj1 & Hh1 & Hi1 & _ & _ & _ & _ & Hwhole).
    injection Hh1 as <-.
    destruct Hwhole as (Htable & _ & Hsep); [reflexivity|..].
    + intros k s Hk. unfold greet_table in Hk.
      apply lookup_singleton_Some in Hk as [_ Hk]. injection Hk as <-.
      solve_within.
    + intros a Ha. injection Ha as <-. solve_within.
    + intros k1 k2 s1 s2 Hne Hk1 Hk2. unfold greet_table in Hk1, Hk2.
      apply lookup_singleton_Some in Hk1 as [<- _].
      apply lookup_singleton_Some in Hk2 as [<- _]. done.
    + intros a k s Ha Hk. injection Ha as <-. unfold greet_table in Hk.
      apply lookup_singleton_Some in Hk as [_ Hk]. injection Hk as <-. discriminate.
    + exists A', tbl', inj1. split; [reflexivity|]. split; [exact Hi1|].
      split; [exact Htable|exact Hsep].
Defined.

Lemma On_overwrites_shared_array_witness :
  (exists tbl1,
     On_slices doubling demo_arrays ∅ "a" (Some roomy_slice) = Ret (demo_arrays, tbl1)
     /\ On_slices doubling demo_arrays tbl1 "b" (Some roomy_slice)
        = Ret (demo_arrays, shared_table))
  /\ exists A1 tbl1 A2 tbl2,
       On_slices doubling demo_arrays shared_table "a" (Some (mkSlice 1 0 1 1)) = Ret (A1, tbl1)
       /\ elements A1 (slices_at tbl1 "a") = Some [a_handler; another_handler]
       /\ On_slices doubling A1 tbl1 "b" (Some (mkSlice 2 0 1 1)) = Ret (A2, tbl2)
       /\ elements A2 (slices_at tbl2 "a") = Some [a_handler; rebinding_handler].
Proof.
  split.
  - eexists. split; reflexivity.
  - destruct (On_overwrites_shared_array (R := demo_reflect) doubling demo_arrays shared_table
                "a" "b" roomy_slice another_handler rebinding_handler 1 2)
      as (A1 & tbl1 & A2 & tbl2 & Hon1 & Hel1 & Hon2 & _ & Hel2);
      [done|reflexivity|reflexivity|solve_within|vm_compute; lia|reflexivity|reflexivity
      |done|done|reflexivity|reflexivity|].
    exists A1, tbl1, A2, tbl2. split; [exact Hon1|]. split; [exact Hel1|].
    split; [exact Hon2|exact Hel2].
Defined.
